(** * pyknotid: crossing detection and direction sampling

    A shallow embedding of [pyknotid/spacecurves/helpers.py] (the crossing
    engine) and [pyknot2/spacecurves/rotation.py] (the direction sampler).

    The Python code computes on [float64] values.  The crossing engine only
    uses arithmetic, squaring by [pow], comparison, [sqrt], [floor] and
    [int], so it is written once over an interface of float operations,
    [Num], with two interpretations:
    - [Binary64]: IEEE 754 binary64 through Rocq's primitive floats, which
      computes what the Python code computes on concrete inputs, the
      squaring taken as correctly rounded (see [binary64_num]);
    - [Real]: the real numbers, the idealised arithmetic in which the analytic
      statements (Cramer's rule, rotation matrices) are meant; it has no
      rounding, no infinity and no NaN (see [real_num]).
    The direction sampler needs [arccos], [cos], [sin] and [pi] and is
    embedded over the real numbers only. *)

From Stdlib Require Import ZArith QArith Reals Lra Lia Bool Floats.
From stdpp Require Import base list.

(** ** Python results: a value or a raised exception *)

Inductive exn : Type :=
| IndexError (index size : nat)   (* index out of bounds for axis 0 with that size *)
| OverflowError                   (* int() of an infinity *)
| ValueError                      (* int() of a NaN, negative dimensions *)
| UnboundLocalError.              (* a local variable read before assignment *)

Inductive result (A : Type) : Type :=
| Ok (a : A)
| Raise (e : exn)
| OutOfFuel.                      (* the model's loop budget ran out *)

Arguments Ok {A} a.
Arguments Raise {A} e.
Arguments OutOfFuel {A}.

#[export] Instance result_ret : MRet result := @Ok.

#[export] Instance result_bind : MBind result := fun A B k r =>
  match r with
  | Ok a => k a
  | Raise e => Raise e
  | OutOfFuel => OutOfFuel
  end.

(** [a[i]] for a non-negative index [i]: numpy and Python raise [IndexError]
    out of range. *)
Definition index {A} (l : list A) (i : nat) : result A :=
  match l !! i with
  | Some a => Ok a
  | None => Raise (IndexError i (length l))
  end.

Definition raising {A} (r : exn + A) : result A :=
  match r with
  | inr a => Ok a
  | inl e => Raise e
  end.

(** ** Python loops and slices *)

(** [for x in l: body], threading the local variables [s]. *)
Fixpoint for_each {A S : Type} (body : A -> S -> result S) (l : list A) (s : S)
    : result S :=
  match l with
  | [] => Ok s
  | a :: l' => s' ← body a s; for_each body l' s'
  end.

Definition enumerate {A : Type} (l : list A) : list (nat * A) :=
  zip (seq 0 (length l)) l.

(** [a[::2]] and [a[1::2]] *)
Fixpoint even_rows {A : Type} (l : list A) : list A :=
  match l with
  | [] => []
  | a :: l' => a :: match l' with [] => [] | _ :: l'' => even_rows l'' end
  end.

Definition odd_rows {A : Type} (l : list A) : list A := even_rows (drop 1 l).

(** ** The float operations the source uses *)

Class Num (F : Type) : Type := {
  lit : Q -> F;               (* a decimal float literal *)
  of_int : Z -> F;            (* an int promoted in mixed arithmetic *)
  add : F -> F -> F;
  sub : F -> F -> F;
  mul : F -> F -> F;
  div : F -> F -> F;
  pow2 : F -> F;              (* pow(x, 2) and x**2 *)
  ltb : F -> F -> bool;       (* a < b; b > a is the same test *)
  fabs : F -> F;              (* abs *)
  csqrt : F -> F;             (* numpy.sqrt *)
  floor : F -> F;             (* numpy.floor, a float *)
  int : F -> exn + Z          (* int(): truncation towards zero, or its exception *)
}.

Declare Scope num_scope.
Delimit Scope num_scope with num.
Infix "+" := add : num_scope.
Infix "-" := sub : num_scope.
Infix "*" := mul : num_scope.
Infix "/" := div : num_scope.
Infix "<?" := ltb : num_scope.

(** *** IEEE 754 binary64 *)

Module Binary64.

Definition of_Z (z : Z) : float :=
  SF2Prim (binary_normalize prec emax z 0 false).

(** A decimal literal denotes the double nearest to it.  Numerator and
    denominator of the source's literals convert exactly, and their quotient
    is rounded to that same double. *)
Definition of_Q (q : Q) : float :=
  PrimFloat.div (of_Z (Qnum q)) (of_Z (Zpos (Qden q))).

(** The integer part of a finite float, rounded down ([down = true]) or
    towards zero. *)
Definition integer_part (down : bool) (s : bool) (m : positive) (e : Z) : Z :=
  let mag := if (0 <=? e)%Z then (Zpos m * 2 ^ e)%Z else (Zpos m / 2 ^ (- e))%Z in
  let exact := if (0 <=? e)%Z then true else (Zpos m mod 2 ^ (- e) =? 0)%Z in
  if s then (if down && negb exact then - mag - 1 else - mag)%Z else mag.

Definition ffloor (x : float) : float :=
  match Prim2SF x with
  | S754_finite s m e =>
      if (0 <=? e)%Z then x
      else let z := integer_part true s m e in
           if (z =? 0)%Z then (if s then PrimFloat.opp 0 else 0%float) else of_Z z
  | _ => x
  end.

Definition to_int (x : float) : exn + Z :=
  match Prim2SF x with
  | S754_zero _ => inr 0%Z
  | S754_finite s m e => inr (integer_part false s m e)
  | S754_infinity _ => inl OverflowError
  | S754_nan => inl ValueError
  end.

(** [x in (-1., 0., 1.)]: the comparison is [==], for which the two zeros
    are equal. *)
Definition is_sign (x : float) : bool :=
  PrimFloat.eqb x 1 || PrimFloat.eqb x (-1) || PrimFloat.eqb x 0.

(** The four operations, the square root and the comparison are those of
    IEEE 754.  [pow(x, 2)] is the C library's [pow], which the standard does
    not fix: it is within one unit in the last place of the exact square.
    The instance takes the correctly rounded square [x * x]; the two agree
    where the square is representable, as for the small integers of the
    inputs below, and can differ in the last place elsewhere.  What is
    proved for every instance of [Num] does not depend on this choice. *)
#[export] Instance binary64_num : Num float := {|
  lit := of_Q;
  of_int := of_Z;
  add := PrimFloat.add;
  sub := PrimFloat.sub;
  mul := PrimFloat.mul;
  div := PrimFloat.div;
  pow2 := fun x => PrimFloat.mul x x;
  ltb := PrimFloat.ltb;
  fabs := PrimFloat.abs;
  csqrt := PrimFloat.sqrt;
  floor := ffloor;
  int := to_int
|}.

End Binary64.

(** *** Real numbers *)

Module Real.

Definition Rltb (a b : R) : bool := if Rlt_dec a b then true else false.

(** Truncation towards zero. *)
Definition Rtrunc (x : R) : Z :=
  if Rlt_dec x 0 then (- Int_part (- x))%Z else Int_part x.

(** Exact arithmetic: nothing is rounded, and there are no infinities and
    no NaN.  So [int] never raises here, and a quotient by zero, an infinity
    or a NaN in the source, is some real number: what is proved over this
    instance describes the source only where every divisor it meets is not
    zero, and up to the rounding of binary64. *)
#[export] Instance real_num : Num R := {|
  lit := Q2R;
  of_int := IZR;
  add := Rplus;
  sub := Rminus;
  mul := Rmult;
  div := Rdiv;
  pow2 := fun x => Rmult x x;
  ltb := Rltb;
  fabs := Rabs;
  csqrt := R_sqrt.sqrt;
  floor := fun x => IZR (Int_part x);
  int := fun x => inr (Rtrunc x)
|}.

End Real.

(** ** helpers.py: the crossing engine

    The function bodies are read as Python on numpy arrays: an index out of
    range raises [IndexError], [int] of an infinity or a NaN raises.  Indices
    and jump modes are unbounded integers; the loop index [i] is never
    negative (it is only lowered by 2 after at least 2 increments) and is a
    [nat].  Points have three coordinates, rows four columns. *)

(** A point of a polyline, a numpy row [[x, y, z]]. *)
Record point (F : Type) : Type := Point { px : F; py : F; pz : F }.
Arguments Point {F}.
Arguments px {F}.
Arguments py {F}.
Arguments pz {F}.

(** A row of a crossings array: columns 0 to 3 are the position on this
    strand, the position on the other strand, the sign and the signed
    direction. *)
Record row (F : Type) : Type := Row { col0 : F; col1 : F; col2 : F; col3 : F }.
Arguments Row {F}.
Arguments col0 {F}.
Arguments col1 {F}.
Arguments col2 {F}.
Arguments col3 {F}.

(** The state of the [while] loop of [find_crossings]. *)
Record loop_state (F : Type) : Type := LoopState {
  i : nat;
  already_jumped : bool;
  crossings : list (row F)
}.
Arguments LoopState {F}.
Arguments i {F}.
Arguments already_jumped {F}.
Arguments crossings {F}.

Section Helpers.
Context {F : Type} `{Num F}.
Local Open Scope num_scope.

Definition cross_product (px py qx qy : F) : F :=
  px * qy - py * qx.

Definition sign (a : F) : F :=
  if lit 0 <? a then lit 1 else if a <? lit 0 then lit (-1) else lit 0.

(** The flag returned first is the int 0 or 1, read as a truth value by the
    caller; it is a [bool] here. *)
Definition do_vectors_intersect (px py dpx dpy qx qy dqx dqy : F) : bool * F * F :=
  if fabs (cross_product dpx dpy dqx dqy) <? lit 0.00001 then
    (false, lit 0, lit 0)
  else
    let t := cross_product (qx - px) (qy - py) dqx dqy
             / cross_product dpx dpy dqx dqy in
    if (t <? lit 1) && (lit 0 <? t) then
      let u := cross_product (qx - px) (qy - py) dpx dpy
               / cross_product dpx dpy dqx dqy in
      if (u <? lit 1) && (lit 0 <? u) then (true, t, u)
      else (false, lit (-1), lit (-1))
    else (false, lit (-1), lit (-1)).

(** [a + b] on two rows, elementwise. *)
Definition row_add (a b : row F) : row F :=
  Row (col0 a + col0 b) (col1 a + col1 b) (col2 a + col2 b) (col3 a + col3 b).

(** [n.zeros((len, 4))] *)
Definition zeros (len : nat) : list (row F) :=
  replicate len (Row (lit 0) (lit 0) (lit 0) (lit 0)).

Section FindCrossings.
Variables (v dv : point F) (points : list (point F)) (segment_lengths : list F).
Variables (current_index comparison_index : Z).
Variables (max_segment_length : F) (jump_mode : Z).

Definition twice_max_segment_length : F := of_int 2 * max_segment_length.

(** [distance] of the loop body, from the query point to [p]. *)
Definition distance_to (p : point F) : F :=
  csqrt (pow2 (px v - px p) + pow2 (py v - py p)).

(** The two arrays added to [crossings[i]] when segment [i] intersects at
    the parameters [intersect_i], [intersect_j]. *)
Definition first_record (i : nat) (intersect_i intersect_j sgn dir : F) : row F :=
  Row (of_int current_index + intersect_i)
      (of_int comparison_index + intersect_j + of_int (Z.of_nat i))
      sgn
      (sgn * dir).

Definition second_record (i : nat) (intersect_i intersect_j sgn dir : F) : row F :=
  Row (of_int comparison_index + intersect_j + of_int (Z.of_nat i))
      (of_int current_index + intersect_i)
      (lit (-1) * sgn)
      (sgn * dir).

(** The first branch: test segment [i] of the comparison strand.
    [crossings] has one row per point, so row [i] exists whenever
    [points[i+1]] does. *)
Definition test_segment (p next_point : point F) (st : loop_state F) : loop_state F :=
  let jump_x := px next_point - px p in
  let jump_y := py next_point - py p in
  let jump_z := pz next_point - pz p in
  let '(intersect, intersect_i, intersect_j) :=
    do_vectors_intersect (px v) (py v) (px dv) (py dv) (px p) (py p) jump_x jump_y in
  let crossings' :=
    if intersect then
      let dpz := jump_z in
      let crossing_sign :=
        sign ((pz v + intersect_i * pz dv) - (pz p + intersect_j * dpz)) in
      let crossing_direction :=
        sign (cross_product (px dv) (py dv) jump_x jump_y) in
      alter (fun r => row_add r (second_record (i st) intersect_i intersect_j
                                   crossing_sign crossing_direction)) (i st)
        (alter (fun r => row_add r (first_record (i st) intersect_i intersect_j
                                      crossing_sign crossing_direction)) (i st)
           (crossings st))
    else crossings st in
  LoopState (i st + 1)%nat false crossings'.

(** The inner [while] of the default jump mode; [n] is
    [len(points) - i], so the loop condition [i < len(points)] is
    [n <> 0].  It yields [(jumps, i)]. *)
Fixpoint accumulate (distance : F) (n : nat) (distance_travelled : F)
    (jumps i : nat) : result (nat * nat) :=
  match n with
  | O => Ok (jumps, i)
  | S n' =>
      if distance_travelled <? distance - max_segment_length then
        s ← index segment_lengths i;
        accumulate distance n' (distance_travelled + s) (jumps + 1)%nat (i + 1)%nat
      else Ok (jumps, i)
  end.

(** One iteration of the outer [while], entered with
    [i < len(points) - 1]. *)
Definition loop_body (st : loop_state F) : result (loop_state F) :=
  p ← index points (i st);
  let distance := distance_to p in
  if (distance <? twice_max_segment_length) || already_jumped st then
    next_point ← index points (i st + 1)%nat;
    Ok (test_segment p next_point st)
  else if (jump_mode =? 3)%Z then
    Ok (LoopState (i st + 1)%nat true (crossings st))
  else if (jump_mode =? 2)%Z then
    num_jumps ← raising (int (floor (distance / max_segment_length) - of_int 1));
    let num_jumps := if (num_jumps <? 1)%Z then 1%Z else num_jumps in
    Ok (LoopState (i st + Z.to_nat num_jumps)%nat true (crossings st))
  else
    '(jumps, i') ← accumulate distance (length points - i st)%nat (lit 0) 0%nat (i st);
    let i' := if (1 <? jumps)%nat then (i' - 2)%nat else i' in
    Ok (LoopState i' true (crossings st)).

(** [while i < len(points) - 1: body]. *)
Fixpoint while_loop (fuel : nat) (st : loop_state F) : result (loop_state F) :=
  if (i st + 1 <? length points)%nat then
    match fuel with
    | O => OutOfFuel
    | S fuel' => st' ← loop_body st; while_loop fuel' st'
    end
  else Ok st.

Definition initial_state : loop_state F :=
  LoopState 0%nat false (zeros (length points)).

(** The iterations [while_loop] may still need from [st]: two for each
    point left, less one after a jump. *)
Definition budget (st : loop_state F) : nat :=
  (2 * (length points - 1 - i st) + (if already_jumped st then 0 else 1))%nat.

(** Every second iteration at the latest moves [i] forward, so twice the
    number of points is budget enough ([find_crossings_terminates]). *)
Definition find_crossings : result (list (row F)) :=
  st ← while_loop (2 * length points)%nat initial_state;
  Ok (crossings st).

End FindCrossings.

(** [a[:, 0] += c] and [a[:, 1] += c] *)
Definition add_col0 (c : F) (a : list (row F)) : list (row F) :=
  map (fun r => Row (col0 r + c) (col1 r) (col2 r) (col3 r)) a.

Definition add_col1 (c : F) (a : list (row F)) : list (row F) :=
  map (fun r => Row (col0 r) (col1 r + c) (col2 r) (col3 r)) a.

Definition point_sub (a b : point F) : point F :=
  Point (px a - px b) (py a - py b) (pz a - pz b).

Section RawCrossLoop.
Variables (lines : list (list (point F))) (segment_lengths : list (list F)).
Variables (max_segment_length : F) (jump_mode : Z).
Variables (cumulative_lengths : list F) (include_closures : bool).

(** The local variables [first_crossings] and [sec_crossings]: unbound
    until the first assignment, bound together afterwards. *)
Definition locals : Type := option (list (row F) * list (row F)).

(** The body of [for i in first_line_range]. *)
Definition query_body (line_index other_index : nat)
    (points comparison_points : list (point F)) (other_seg_lengths : list F)
    (i : nat) (vars : locals) : result locals :=
  v0 ← index points i;
  next ← index points ((i + 1) mod length points)%nat;
  let dv := point_sub next v0 in
  let vnum := Z.of_nat i in
  let compnum := 0%Z in
  new_crossings ← find_crossings v0 dv comparison_points other_seg_lengths
                    vnum compnum max_segment_length jump_mode;
  if (length new_crossings =? 0)%nat then Ok vars
  else
    c_line ← index cumulative_lengths line_index;
    c_other ← index cumulative_lengths other_index;
    let first_crossings := add_col1 c_other (add_col0 c_line (even_rows new_crossings)) in
    let sec_crossings := add_col1 c_line (add_col0 c_other (odd_rows new_crossings)) in
    Ok (Some (first_crossings, sec_crossings)).

(** The body of [for other_index, other_line in enumerate(lines[line_index+1:])]. *)
Definition pair_body (line_index : nat) (line : list (point F))
    (other : nat * list (point F)) (vars : locals) : result locals :=
  let other_index := (other.1 + (line_index + 1))%nat in
  let other_line := other.2 in
  let points := line in
  let comparison_points :=
    if include_closures then other_line ++ take 1 other_line else other_line in
  other_seg_lengths ← index segment_lengths other_index;
  let first_line_range :=
    if include_closures then seq 0 (length points)
    else seq 0 (length points - 1)%nat in
  for_each (query_body line_index other_index points comparison_points
              other_seg_lengths) first_line_range vars.

Definition line_body (l : nat * list (point F)) (vars : locals) : result locals :=
  for_each (pair_body l.1 l.2) (enumerate (drop (l.1 + 1)%nat lines)) vars.

Definition raw_cross_loop : result (list (row F) * list (row F)) :=
  vars ← for_each line_body (enumerate lines) None;
  match vars with
  | Some (first_crossings, sec_crossings) => Ok (first_crossings, sec_crossings)
  | None => Raise UnboundLocalError
  end.

End RawCrossLoop.

End Helpers.

(** ** rotation.py: the direction sampler, over the real numbers *)

Module Rotation.
Local Open Scope R_scope.

(** [x % y] on floats, for a positive [y]: [x - y * floor(x / y)]. *)
Definition fmod (x y : R) : R := x - y * IZR (Int_part (x / y)).

(** A row of [angles]: [(theta, phi)]. *)
Definition angle : Type := R * R.

(** The body of [for k in range(2, number+1)]. *)
Definition angles_body (number : Z) (k : nat) (angles : list angle)
    : result (list angle) :=
  let h_k := -1 + (2 * (INR k - 1)) / (IZR number - 1) in
  let theta := acos h_k in
  prev ← index angles (k - 2);
  let phi := fmod (prev.2 + 3.6 / R_sqrt.sqrt (IZR number) * 1 / R_sqrt.sqrt (1 - h_k ^ 2))
               (2 * PI) in
  Ok (<[(k - 1)%nat := (theta, phi)]> angles).

(** [n.zeros((number, 2))] refuses a negative dimension; [angles[0] = ...]
    needs a first row; the division by [number - 1] is only reached for
    [number >= 2].  The last row's [phi] (in binary64 a NaN, from the
    division by [sqrt(0)]) is overwritten. *)
Definition get_rotation_angles (number : Z) : result (list angle) :=
  if (number <? 0)%Z then Raise ValueError
  else
    let n := Z.to_nat number in
    let angles := replicate n (0, 0) in
    _ ← index angles 0;
    let angles := <[0%nat := (acos (-1), 0)]> angles in
    angles ← for_each (angles_body number) (seq 2 (n - 1)) angles;
    Ok (alter (fun r => (r.1, 0)) (n - 1)%nat angles).

(** A latitude in [0, pi] with a longitude in [0, 2 pi). *)
Definition in_range (a : angle) : Prop :=
  (0 <= a.1 <= PI) /\ (0 <= a.2 < 2 * PI).

(** Matrices are lists of rows. *)
Definition matrix : Type := list (list R).

Definition entry (M : matrix) (r c : nat) : R := nth c (nth r M []) 0.

Definition column (M : matrix) (c : nat) : list R := map (fun row => nth c row 0) M.

Definition dot_vec (a b : list R) : R := fold_right Rplus 0 (zip_with Rmult a b).

(** [A.dot(B)] for 2D arrays. *)
Definition dot (A B : matrix) : matrix :=
  map (fun row => map (fun c => dot_vec row (column B c)) (seq 0 (length (nth 0 B [])))) A.

Definition first_rotation (chi : R) : matrix :=
  let cc := cos chi in
  let sc := sin chi in
  [[cc; - sc; 0];
   [sc; cc; 0];
   [0; 0; 1]].

Definition second_rotation (alpha : R) : matrix :=
  let ca := cos alpha in
  let sa := sin alpha in
  [[ca; 0; - sa];
   [0; 1; 0];
   [sa; 0; ca]].

Definition rotate_to_top (theta phi : R) : matrix :=
  let chi := -1 * phi in
  let alpha := theta in
  dot (second_rotation alpha) (first_rotation chi).

(** *** Vocabulary of the specification *)

Definition transpose (M : matrix) : matrix :=
  map (column M) (seq 0 (length (nth 0 M []))).

Definition identity3 : matrix := [[1; 0; 0]; [0; 1; 0]; [0; 0; 1]].

Definition det3 (M : matrix) : R :=
  entry M 0 0 * (entry M 1 1 * entry M 2 2 - entry M 1 2 * entry M 2 1)
  - entry M 0 1 * (entry M 1 0 * entry M 2 2 - entry M 1 2 * entry M 2 0)
  + entry M 0 2 * (entry M 1 0 * entry M 2 1 - entry M 1 1 * entry M 2 0).

(** Orthonormal rows and columns. *)
Definition orthonormal (M : matrix) : Prop :=
  dot M (transpose M) = identity3 /\ dot (transpose M) M = identity3.

(** [M] applied to a column vector. *)
Definition apply (M : matrix) (x : list R) : list R := map (fun row => dot_vec row x) M.

(** The unit vector at polar angle [theta] (measured from the pole, as the
    sampler's [arccos] of the height) and azimuth [phi]. *)
Definition direction (theta phi : R) : list R :=
  [sin theta * cos phi; sin theta * sin phi; cos theta].

Definition pole : list R := [0; 0; 1].

End Rotation.

(** ** Concrete inputs, in binary64 *)

Module Inputs.
Import Binary64.
Local Open Scope float_scope.

(** Two long segments with integer coordinates, nearly parallel, in any
    arithmetic: [p = (0, 0)], [dp = (268435462, 268435464)], [q = (-7, -7)],
    [dq = (268435463, 268435465)].  The cross product of [dp] and [dq] is
    -2, and the lines through the segments meet at [t = u = 7], far outside
    both segments. *)
Definition nearly_parallel {F : Type} `{Num F} : bool * F * F :=
  do_vectors_intersect (of_int 0) (of_int 0) (of_int 268435462) (of_int 268435464)
    (of_int (-7)) (of_int (-7)) (of_int 268435463) (of_int 268435465).

(** A strand along the y axis at height [z], through (0,-3), (0,-1), (0,1),
    with its two segment lengths. *)
Definition upright (z : float) : list (point float) :=
  [Point 0 (-3) z; Point 0 (-1) z; Point 0 1 z].
Definition upright_lengths : list float := [2; 2].

(** A strand along the x axis in the plane z = 0, through (-1,0), (1,0),
    (2,0): its first segment crosses the second segment of [upright]. *)
Definition level : list (point float) :=
  [Point (-1) 0 0; Point 1 0 0; Point 2 0 0].
Definition level_lengths : list float := [2; 1].

(** The first segment of [level] against [upright z], every comparison
    segment tested (jump mode 3). *)
Definition cross_upright (z : float) : result (list (row float)) :=
  find_crossings (Point (-1) 0 0) (Point 2 0 0) (upright z) upright_lengths 0 0 2 3.

(** Both strands as the two lines of a link, closures excluded. *)
Definition two_strands : result (list (row float) * list (row float)) :=
  raw_cross_loop [level; upright 1] [level_lengths; upright_lengths] 2 3 [0; 3] false.

(** Two parallel horizontal segments, one unit apart. *)
Definition parallel_segments : bool * float * float :=
  do_vectors_intersect 0 0 1 0 0 1 1 0.

(** Six points on the line x = 4, one unit apart, seen from the origin. *)
Definition far_points : list (point float) :=
  [Point 4 0 0; Point 4 1 0; Point 4 2 0; Point 4 3 0; Point 4 4 0; Point 4 5 0].
Definition far_lengths : list float := [1; 1; 1; 1; 1].
Definition far_body : loop_state float -> result (loop_state float) :=
  loop_body (Point 0 0 0) (Point 0 1 0) far_points far_lengths 0 0 1 2.

(** Three points on the x axis, one length per segment, seen from
    (100, 0) in the default jump mode. *)
Definition distant_query : result (list (row float)) :=
  find_crossings (Point 100 0 0) (Point 0 1 0)
    [Point 0 0 0; Point 1 0 0; Point 2 0 0] [1; 1] 0 0 1 1.

End Inputs.

(** ** helpers.py: the remaining function, and the scan find_crossings speeds up *)

Section Scan.
Context {F : Type} `{Num F}.
Local Open Scope num_scope.

(** [mag_difference(a, b)]: only the first two coordinates are read. *)
Definition mag_difference (a b : point F) : F :=
  csqrt (pow2 (px b - px a) + pow2 (py b - py a)).

Variables (v dv : point F) (current_index comparison_index : Z).

(** Row [j] of the buffer once segment [j], from [p] to [q], has been tested
    on a row of zeros: both records of its crossing added, or zeros. *)
Definition crossing_row (j : nat) (p q : point F) : row F :=
  let zero := Row (lit 0) (lit 0) (lit 0) (lit 0) in
  let jump_x := px q - px p in
  let jump_y := py q - py p in
  let jump_z := pz q - pz p in
  let '(intersect, intersect_i, intersect_j) :=
    do_vectors_intersect (px v) (py v) (px dv) (py dv) (px p) (py p) jump_x jump_y in
  if intersect then
    let crossing_sign :=
      sign ((pz v + intersect_i * pz dv) - (pz p + intersect_j * jump_z)) in
    let crossing_direction := sign (cross_product (px dv) (py dv) jump_x jump_y) in
    row_add
      (row_add zero
         (first_record current_index comparison_index j intersect_i intersect_j
            crossing_sign crossing_direction))
      (second_record current_index comparison_index j intersect_i intersect_j
         crossing_sign crossing_direction)
  else zero.

(** The buffer when every segment of the comparison strand is tested, one
    after the other from index [j]: a row per segment and a last row of
    zeros. *)
Fixpoint segment_rows (j : nat) (points : list (point F)) : list (row F) :=
  match points with
  | [] => []
  | p :: rest =>
      match rest with
      | [] => [Row (lit 0) (lit 0) (lit 0) (lit 0)]
      | q :: _ => crossing_row j p q :: segment_rows (S j) rest
      end
  end.

End Scan.

(** [segment_lengths[j]] where it exists, over the real numbers, and the
    lengths accumulated by the default jump mode from index [a] over [c]
    segments. *)
Definition length_at (segment_lengths : list R) (j : nat) : R :=
  match segment_lengths !! j with
  | Some s => s
  | None => 0%R
  end.

Fixpoint path_length (segment_lengths : list R) (a c : nat) : R :=
  match c with
  | O => 0%R
  | S c' => (path_length segment_lengths a c' + length_at segment_lengths (a + c'))%R
  end.

(** ** Concrete inputs over the real numbers *)

Module RealInputs.
Local Open Scope R_scope.

(** A unit query segment from the origin along the x axis, and a unit
    comparison segment on the line x = 3, with a length for each point. *)
Definition query_start : point R := Point 0 0 0.
Definition query_step : point R := Point 1 0 0.
Definition side_points : list (point R) := [Point 3 0 0; Point 3 1 0].
Definition side_lengths : list R := [1; 1].

End RealInputs.

(** * Properties *)

(** ** The crossing engine, for every interpretation of the float operations *)

Section HelpersFacts.
Context {F : Type} `{Num F}.
Local Open Scope num_scope.

Lemma sign_cases (a : F) : sign a = lit 1 \/ sign a = lit (-1) \/ sign a = lit 0.
Proof. unfold sign. destruct (lit 0 <? a), (a <? lit 0); auto. Qed.

(** The records built for a crossing mirror each other: positions swapped,
    sign multiplied by [-1.], direction shared. *)
Lemma records_mirrored (current_index comparison_index : Z) (i : nat)
    (intersect_i intersect_j sgn dir : F) :
  let a := first_record current_index comparison_index i intersect_i intersect_j sgn dir in
  let b := second_record current_index comparison_index i intersect_i intersect_j sgn dir in
  col0 b = col1 a /\ col1 b = col0 a /\ col2 b = lit (-1) * col2 a /\ col3 b = col3 a.
Proof. cbn. auto. Qed.

(** An intersection is reported exactly when the three tests of the source
    pass, whatever the arithmetic; it then carries the two quotients. *)
Lemma intersection_reported_iff (px py dpx dpy qx qy dqx dqy : F) :
  let c := cross_product dpx dpy dqx dqy in
  let t := cross_product (qx - px) (qy - py) dqx dqy / c in
  let u := cross_product (qx - px) (qy - py) dpx dpy / c in
  let r := do_vectors_intersect px py dpx dpy qx qy dqx dqy in
  (r.1.1 = true <->
     (fabs c <? lit 0.00001) = false /\
     ((t <? lit 1) = true /\ (lit 0 <? t) = true) /\
     ((u <? lit 1) = true /\ (lit 0 <? u) = true)) /\
  (r.1.1 = true -> r = (true, t, u)).
Proof.
  intros c t u r. subst r. unfold do_vectors_intersect. fold c. fold t. fold u.
  destruct (fabs c <? lit 0.00001); [cbn; intuition discriminate |].
  destruct (t <? lit 1), (lit 0 <? t); cbn [andb]; try (cbn; intuition discriminate).
  destruct (u <? lit 1), (lit 0 <? u); cbn; intuition discriminate.
Qed.

(** C4 (amended): when no intersection is reported, the result is
    [(false, 0, 0)] for near-parallel segments (the cross product of [dp] and
    [dq] below the tolerance in magnitude) and the sentinel [(false, -1, -1)]
    in every other case. *)
Theorem no_intersection_result (px py dpx dpy qx qy dqx dqy : F) :
  (do_vectors_intersect px py dpx dpy qx qy dqx dqy).1.1 = false ->
  if fabs (cross_product dpx dpy dqx dqy) <? lit 0.00001
  then do_vectors_intersect px py dpx dpy qx qy dqx dqy = (false, lit 0, lit 0)
  else do_vectors_intersect px py dpx dpy qx qy dqx dqy = (false, lit (-1), lit (-1)).
Proof.
  unfold do_vectors_intersect.
  destruct (fabs (cross_product dpx dpy dqx dqy) <? lit 0.00001); [done |].
  destruct (_ && _); [| done].
  destruct (_ && _); [| done].
  cbn. discriminate.
Qed.

Section Loop.
Variables (v dv : point F) (points : list (point F)) (segment_lengths : list F).
Variables (current_index comparison_index : Z).
Variables (max_segment_length : F) (jump_mode : Z).

#[local] Abbreviation body :=
  (loop_body v dv points segment_lengths current_index comparison_index
     max_segment_length jump_mode).
#[local] Abbreviation test := (test_segment v dv current_index comparison_index).
#[local] Abbreviation loop :=
  (while_loop v dv points segment_lengths current_index comparison_index
     max_segment_length jump_mode).

Lemma test_segment_i (p q : point F) (st : loop_state F) :
  i (test p q st) = (i st + 1)%nat /\
  already_jumped (test p q st) = false.
Proof.
  unfold test_segment.
  destruct (do_vectors_intersect _ _ _ _ _ _ _ _) as [[? ?] ?]. done.
Qed.

(** A crossing on segment [i] adds both of its records into row [i]. *)
Lemma test_segment_adds_both_records (p q : point F) (st : loop_state F)
    (intersect_i intersect_j : F) :
  do_vectors_intersect (px v) (py v) (px dv) (py dv) (px p) (py p)
    (px q - px p) (py q - py p) = (true, intersect_i, intersect_j) ->
  let sgn := sign ((pz v + intersect_i * pz dv) - (pz p + intersect_j * (pz q - pz p))) in
  let dir := sign (cross_product (px dv) (py dv) (px q - px p) (py q - py p)) in
  crossings (test p q st) =
    alter (fun r => row_add (row_add r
                      (first_record current_index comparison_index (i st)
                         intersect_i intersect_j sgn dir))
                      (second_record current_index comparison_index (i st)
                         intersect_i intersect_j sgn dir))
      (i st) (crossings st).
Proof.
  intros Hcross sgn dir. unfold test_segment. rewrite Hcross.
  cbn [crossings]. apply list_alter_alter_eq.
Qed.

Lemma accumulate_i (distance : F) (n : nat) :
  forall dt jumps i jumps' i',
    accumulate segment_lengths max_segment_length distance n dt jumps i
      = Ok (jumps', i') ->
    (jumps <= jumps' /\ i' = i + (jumps' - jumps))%nat.
Proof.
  induction n as [| n IH]; intros dt jumps i0 jumps' i'; cbn.
  - intros [= <- <-]. lia.
  - destruct (dt <? distance - max_segment_length).
    + unfold index. destruct (segment_lengths !! i0); [| done]. cbn.
      intros Hacc. apply IH in Hacc. lia.
    + intros [= <- <-]. lia.
Qed.

Lemma accumulate_fuel (distance : F) (n : nat) :
  forall dt jumps i,
    accumulate segment_lengths max_segment_length distance n dt jumps i <> OutOfFuel.
Proof.
  induction n as [| n IH]; intros dt jumps i0; cbn [accumulate]; [done |].
  destruct (dt <? _); [| done].
  unfold index. destruct (segment_lengths !! i0); [apply IH | done].
Qed.

Lemma loop_body_budget (st st' : loop_state F) :
  (i st + 1 < length points)%nat ->
  body st = Ok st' ->
  (budget points st' < budget points st)%nat.
Proof.
  intros Hi. unfold loop_body, budget, index.
  destruct (points !! i st) as [p |]; [cbn [mbind result_bind] | done].
  destruct (_ || _) eqn:Htest.
  - destruct (points !! (i st + 1)%nat) as [q |]; [cbn [mbind result_bind] | done].
    intros [= <-]. destruct (test_segment_i p q st) as [-> ->].
    destruct (already_jumped st); lia.
  - apply orb_false_elim in Htest as [_ ->].
    destruct (jump_mode =? 3)%Z; [intros [= <-]; cbn [i already_jumped]; lia |].
    destruct (jump_mode =? 2)%Z.
    + destruct (int _) as [e | k]; [done | cbn [mbind result_bind raising]].
      intros [= <-]. cbn [i already_jumped]. destruct (k <? 1)%Z; lia.
    + destruct (accumulate _ _ _ _ _ _ _) as [[jumps i'] | |] eqn:Hacc;
        [cbn [mbind result_bind] | done | done].
      apply accumulate_i in Hacc. intros [= <-]. cbn [i already_jumped].
      destruct (1 <? jumps)%nat eqn:Hj; [apply Nat.ltb_lt in Hj |]; lia.
Qed.

Lemma loop_body_fuel (st : loop_state F) : body st <> OutOfFuel.
Proof.
  unfold loop_body, index.
  destruct (points !! i st); [cbn [mbind result_bind] | done].
  destruct (_ || _).
  - destruct (points !! (i st + 1)%nat); done.
  - destruct (jump_mode =? 3)%Z; [done |].
    destruct (jump_mode =? 2)%Z; [destruct (int _); done |].
    pose proof (accumulate_fuel (distance_to v p) (length points - i st)
                  (lit 0) 0%nat (i st)) as Hacc.
    destruct (accumulate _ _ _ _ _ _ _) as [[jumps i'] | |]; done.
Qed.

Lemma while_loop_budget (fuel : nat) :
  forall st, (budget points st <= fuel)%nat -> loop fuel st <> OutOfFuel.
Proof.
  induction fuel as [| fuel IH]; intros st Hfuel; cbn [while_loop];
    destruct (i st + 1 <? length points)%nat eqn:Hi; try done;
    apply Nat.ltb_lt in Hi.
  - unfold budget in Hfuel. lia.
  - pose proof (loop_body_fuel st) as Hfuel'.
    destruct (body st) as [st' | |] eqn:Hbody; [| done | done].
    apply IH. apply loop_body_budget in Hbody; [lia | done].
Qed.

Theorem find_crossings_terminates :
  find_crossings v dv points segment_lengths current_index comparison_index
    max_segment_length jump_mode <> OutOfFuel.
Proof.
  unfold find_crossings.
  pose proof (while_loop_budget (2 * length points)
                (initial_state points)) as Hloop.
  destruct (loop _ _) as [st | |] eqn:Hrun; [done | done |].
  destruct (decide (length points = 0)%nat) as [Hlen | Hlen].
  - rewrite Hlen in Hrun. cbn in Hrun. rewrite Hlen in Hrun. discriminate Hrun.
  - exfalso. apply Hloop; [| done]. unfold budget, initial_state.
    cbn [i already_jumped]. lia.
Qed.

Lemma after_jump_single_step (st : loop_state F) (p q : point F) :
  points !! i st = Some p ->
  points !! (i st + 1)%nat = Some q ->
  already_jumped st = true ->
  body st = Ok (test p q st) /\ i (test p q st) = (i st + 1)%nat.
Proof.
  intros Hp Hq Hj. unfold loop_body, index. rewrite Hp.
  cbn [mbind result_bind]. rewrite Hj, orb_true_r, Hq.
  split; [done |]. apply test_segment_i.
Qed.

(** C9 (amended): in jump mode 2, when the planar distance from the query
    point to the current comparison point is at least twice
    [max_segment_length] and the previous iteration did not jump
    ([already_jumped] is clear), the iteration advances the index by exactly
    [max(1, floor(distance / max_segment_length) - 1)] and sets
    [already_jumped]. *)
Theorem max_step_jump (st : loop_state F) (p : point F) (k : Z) :
  jump_mode = 2%Z ->
  points !! i st = Some p ->
  already_jumped st = false ->
  (distance_to v p <? twice_max_segment_length max_segment_length) = false ->
  int (floor (distance_to v p / max_segment_length) - of_int 1) = inr k ->
  body st = Ok (LoopState (i st + Z.to_nat (Z.max 1 k)) true (crossings st)).
Proof.
  intros -> Hp Hj Hfar Hint. unfold loop_body, index.
  rewrite Hp. cbn [mbind result_bind]. rewrite Hj, orb_false_r, Hfar.
  change (2 =? 3)%Z with false. change (2 =? 2)%Z with true. cbv iota.
  rewrite Hint. cbn [raising mbind result_bind].
  replace (if (k <? 1)%Z then 1%Z else k) with (Z.max 1 k); [done |].
  destruct (k <? 1)%Z eqn:Hk; [apply Z.ltb_lt in Hk | apply Z.ltb_ge in Hk]; lia.
Qed.

End Loop.

End HelpersFacts.

(** ** The crossing engine in binary64, on concrete inputs *)

Module Binary64Facts.
Import Binary64 Inputs.
Local Open Scope float_scope.

(** The tolerance is the double nearest to 0.00001, as in Python. *)
Example binary64_tolerance : lit 0.00001 = 0x1.4f8b588e368f1p-17.
Proof. vm_compute. reflexivity. Qed.

(** Segments crossing at their midpoints, and a crossing at an end point of
    the first segment, which is not reported. *)
Example do_vectors_intersect_midpoints :
  do_vectors_intersect (-1) 0 2 0 0 (-1) 0 2 = (true, 0.5, 0.5).
Proof. vm_compute. reflexivity. Qed.

Example do_vectors_intersect_end_point :
  do_vectors_intersect 0 0 2 0 0 (-1) 0 2 = (false, -1, -1).
Proof. vm_compute. reflexivity. Qed.

(** The direction field of a record as built, a product of two signs, is
    -1, 0 (of either sign) or 1. *)
Lemma record_direction_cases (a b : float) :
  let d := mul (sign a) (sign b) in
  d = 1 \/ d = -1 \/ d = 0 \/ d = -0.
Proof.
  cbv zeta.
  destruct (sign_cases a) as [-> | [-> | ->]], (sign_cases b) as [-> | [-> | ->]];
    vm_compute; auto.
Qed.

(** C1: the first segment of [level] crosses the second segment of
    [upright 1] once.  The claim expects two mirrored records in the output,
    [(0.5, 1.5, -1, -1)] and [(1.5, 0.5, 1, -1)]; the code adds both into
    row 1 of the buffer, so the output holds their sum [(2, 2, 0, -2)] and
    neither record. *)
Theorem crossing_records_summed :
  cross_upright 1 = Ok [Row 0 0 0 0; Row 2 2 0 (-2); Row 0 0 0 0] /\
  first_record 0 0 1 0.5 0.5 (-1) 1 = Row 0.5 1.5 (-1) (-1) /\
  second_record 0 0 1 0.5 0.5 (-1) 1 = Row 1.5 0.5 1 (-1) /\
  row_add (row_add (Row 0 0 0 0) (Row 0.5 1.5 (-1) (-1))) (Row 1.5 0.5 1 (-1))
    = Row 2 2 0 (-2).
Proof. repeat split; vm_compute; reflexivity. Qed.

(** C2: with the two strands as a link, the query segment 0 of [level] finds
    the crossing, the query segment 1 finds none, and [raw_cross_loop]
    returns the slices of the last call only: the crossing is not in its
    output. *)
Theorem only_last_query_returned :
  find_crossings (Point (-1) 0 0) (Point 2 0 0) (upright 1) upright_lengths 0 0 2 3
    = Ok [Row 0 0 0 0; Row 2 2 0 (-2); Row 0 0 0 0] /\
  find_crossings (Point 1 0 0) (Point 1 0 0) (upright 1) upright_lengths 1 0 2 3
    = Ok [Row 0 0 0 0; Row 0 0 0 0; Row 0 0 0 0] /\
  two_strands = Ok ([Row 0 3 0 0; Row 0 3 0 0], [Row 3 0 0 0]).
Proof. repeat split; vm_compute; reflexivity. Qed.

(** C4 (as stated) fails: for parallel segments no intersection is reported
    and the result is [(false, 0, 0)], not the sentinel [(false, -1, -1)]. *)
Lemma parallel_not_sentinel :
  parallel_segments.1.1 = false /\
  parallel_segments = (false, 0, 0) /\
  parallel_segments <> (false, -1, -1).
Proof.
  split; [reflexivity |]. split; [vm_compute; reflexivity |].
  intros Heq. apply (f_equal (fun r => Prim2SF r.1.2)) in Heq.
  vm_compute in Heq. discriminate Heq.
Qed.

(** Where [upright (-1)] passes under [level], the crossing has sign 1 and
    direction 1.  The row of the output is the sum of its two records, as
    for [upright 1]: sign field 0 and direction field 2. *)
Lemma direction_field_doubled :
  cross_upright (-1) = Ok [Row 0 0 0 0; Row 2 2 0 2; Row 0 0 0 0] /\
  (2 <> -1 /\ 2 <> 0 /\ 2 <> 1).
Proof.
  split; [vm_compute; reflexivity |].
  repeat split; intros Heq; apply (f_equal Prim2SF) in Heq;
    vm_compute in Heq; discriminate Heq.
Qed.

(** C9 (as stated) fails: from the origin the first point of [far_points] is
    at distance 4, so the first iteration jumps to index 3; there the
    distance is 5, still at least twice the maximal segment length 1, but
    the iteration that follows a jump tests the segment and advances by one,
    to 4, not by [max(1, floor(5 / 1) - 1) = 4], to 7. *)
Lemma no_jump_after_jump :
  far_body (initial_state far_points) = Ok (LoopState 3 true (zeros 6)) /\
  far_points !! 3%nat = Some (Point 4 3 0) /\
  distance_to (Point 0 0 0) (Point 4 3 0) = 5 /\
  ltb 5 (twice_max_segment_length 1) = false /\
  int (sub (floor (div 5 1)) (of_int 1)) = inr 4%Z /\
  far_body (LoopState 3 true (zeros 6)) = Ok (LoopState 4 false (zeros 6)) /\
  (3 + Z.to_nat (Z.max 1 4))%nat = 7%nat.
Proof. repeat split; vm_compute; reflexivity. Qed.

(** C5: whenever the loop of [find_crossings] finds an intersection on
    segment [i], at the parameters [intersect_i] and [intersect_j], it adds
    to row [i] the two records [a] and [b] written out below.  Their sign
    fields are the crossing sign and [-1.] times it; their direction fields
    are both the crossing sign times the sign of the cross product of [dv]
    and the comparison segment; each of these fields is -1, 0 or 1. *)
Theorem crossing_record_fields (v dv p q : point float)
    (current_index comparison_index : Z) (st : loop_state float)
    (intersect_i intersect_j : float) :
  do_vectors_intersect (px v) (py v) (px dv) (py dv) (px p) (py p)
    (px q - px p) (py q - py p) = (true, intersect_i, intersect_j) ->
  let height := (pz v + intersect_i * pz dv) - (pz p + intersect_j * (pz q - pz p)) in
  let crossing_sign :=
    if 0 <? height then 1 else if height <? 0 then -1 else 0 in
  let turn := px dv * (py q - py p) - py dv * (px q - px p) in
  let crossing_direction :=
    if 0 <? turn then 1 else if turn <? 0 then -1 else 0 in
  let a := Row (of_Z current_index + intersect_i)
               (of_Z comparison_index + intersect_j + of_Z (Z.of_nat (i st)))
               crossing_sign
               (crossing_sign * crossing_direction) in
  let b := Row (of_Z comparison_index + intersect_j + of_Z (Z.of_nat (i st)))
               (of_Z current_index + intersect_i)
               (-1 * crossing_sign)
               (crossing_sign * crossing_direction) in
  crossings (test_segment v dv current_index comparison_index p q st)
    = alter (fun r => row_add (row_add r a) b) (i st) (crossings st) /\
  is_sign (col2 a) = true /\ is_sign (col3 a) = true /\
  is_sign (col2 b) = true /\ is_sign (col3 b) = true.
Proof.
  intros Hcross height crossing_sign turn crossing_direction a b.
  split.
  - rewrite (test_segment_adds_both_records v dv current_index comparison_index
               p q st intersect_i intersect_j Hcross).
    reflexivity.
  - subst a b. cbn [col2 col3]. subst crossing_sign crossing_direction.
    destruct (0 <? height), (height <? 0), (0 <? turn), (turn <? 0);
      vm_compute; auto.
Qed.

(** C5 at the crossing of [level] over [upright (-1)]: the records are
    [(0.5, 1.5, 1, 1)] and [(1.5, 0.5, -1, 1)]. *)
Lemma crossing_record_fields_witness :
  crossings (test_segment (Point (-1) 0 0) (Point 2 0 0) 0 0
               (Point 0 (-1) (-1)) (Point 0 1 (-1)) (LoopState 1 false (zeros 3)))
    = alter (fun r => row_add (row_add r (Row 0.5 1.5 1 1)) (Row 1.5 0.5 (-1) 1)) 1%nat
        (zeros 3) /\
  is_sign 1 = true /\ is_sign 1 = true /\ is_sign (-1) = true /\ is_sign 1 = true.
Proof.
  exact (crossing_record_fields (Point (-1) 0 0) (Point 2 0 0)
           (Point 0 (-1) (-1)) (Point 0 1 (-1)) 0 0 (LoopState 1 false (zeros 3))
           0.5 0.5 eq_refl).
Defined.

(** C10: [segment_lengths] holds one length per segment of the three
    comparison points; the accumulation loop of the default jump mode reads
    [segment_lengths[2]], one past its end. *)
Theorem accumulation_reads_past_end :
  length [1; 1] = (length [Point 0 0 0; Point 1 0 0; Point 2 0 0] - 1)%nat /\
  distant_query = Raise (IndexError 2 2).
Proof. split; vm_compute; reflexivity. Qed.

(** The amended C4 at the parallel segments. *)
Lemma no_intersection_result_witness :
  parallel_segments.1.1 = false /\ parallel_segments = (false, lit 0, lit 0).
Proof.
  split; [reflexivity |].
  exact (no_intersection_result 0 0 1 0 0 1 1 0 eq_refl).
Defined.

(** The amended C9 at the first iteration over [far_points]: distance 4,
    a jump of [max(1, 3)] points. *)
Lemma max_step_jump_witness :
  far_body (initial_state far_points)
    = Ok (LoopState (0 + Z.to_nat (Z.max 1 3)) true (zeros 6)).
Proof.
  exact (max_step_jump (Point 0 0 0) (Point 0 1 0) far_points far_lengths 0 0 1 2
           (initial_state far_points) (Point 4 0 0) 3
           eq_refl eq_refl eq_refl eq_refl eq_refl).
Defined.

End Binary64Facts.

(** ** The intersection test over the real numbers *)

Module RealFacts.
Import Real.
Local Open Scope R_scope.

Lemma Rltb_true (a b : R) : Rltb a b = true <-> a < b.
Proof. unfold Rltb. destruct (Rlt_dec a b); split; intros; try done. Qed.

Lemma Rltb_false (a b : R) : Rltb a b = false <-> b <= a.
Proof. unfold Rltb. destruct (Rlt_dec a b); split; intros; try done; lra. Qed.

Lemma real_tolerance : lit 0.00001 = 0.00001.
Proof. cbn. unfold Q2R. cbn. lra. Qed.

Lemma lit_0 : lit 0 = 0.
Proof. cbn. unfold Q2R. cbn. lra. Qed.

Lemma lit_1 : lit 1 = 1.
Proof. cbn. unfold Q2R. cbn. lra. Qed.

Lemma lit_m1 : lit (-1) = -1.
Proof. cbn. unfold Q2R. cbn. lra. Qed.

(** Cramer's rule for [p + t dp = q + u dq]. *)
Lemma cramer (px py dpx dpy qx qy dqx dqy : R) :
  let c := dpx * dqy - dpy * dqx in
  let t := ((qx - px) * dqy - (qy - py) * dqx) / c in
  let u := ((qx - px) * dpy - (qy - py) * dpx) / c in
  c <> 0 -> px + t * dpx = qx + u * dqx /\ py + t * dpy = qy + u * dqy.
Proof. intros c t u Hc. subst t u c. split; field; done. Qed.

(** In exact arithmetic [do_vectors_intersect] reports an intersection
    exactly when the cross product [c] of [dp] and [dq] is at least the
    tolerance 0.00001 in magnitude and the solutions
    [t = cross(q - p, dq) / c] and [u = cross(q - p, dp) / c] both lie
    strictly between 0 and 1; it then returns these [t] and [u], which
    satisfy [p + t dp = q + u dq]; a solution with [t] or [u] equal to 0 or
    1 is not reported. *)
Lemma do_vectors_intersect_cramer (px py dpx dpy qx qy dqx dqy : R) :
  let c := cross_product dpx dpy dqx dqy in
  let t := cross_product (qx - px) (qy - py) dqx dqy / c in
  let u := cross_product (qx - px) (qy - py) dpx dpy / c in
  let r := do_vectors_intersect px py dpx dpy qx qy dqx dqy in
  (r.1.1 = true <-> 0.00001 <= Rabs c /\ (0 < t < 1) /\ (0 < u < 1)) /\
  (r.1.1 = true ->
     r = (true, t, u) /\
     px + t * dpx = qx + u * dqx /\ py + t * dpy = qy + u * dqy) /\
  (t = 0 \/ t = 1 \/ u = 0 \/ u = 1 -> r.1.1 = false).
Proof.
  intros c t u r.
  assert (Hr : r = if Rltb (Rabs c) 0.00001 then (false, 0, 0)
                   else if Rltb t 1 && Rltb 0 t
                        then if Rltb u 1 && Rltb 0 u then (true, t, u)
                             else (false, -1, -1)
                        else (false, -1, -1)).
  { subst r. unfold do_vectors_intersect.
    rewrite real_tolerance, lit_0, lit_1, lit_m1. reflexivity. }
  clearbody r. subst r.
  assert (Hc : 0.00001 <= Rabs c -> c <> 0).
  { intros Hge ->. rewrite Rabs_R0 in Hge. lra. }
  destruct (Rltb (Rabs c) 0.00001) eqn:E1;
    [apply Rltb_true in E1 | apply Rltb_false in E1]; cbn [fst].
  { repeat split; try done; intros; lra. }
  destruct (Rltb t 1) eqn:E2; [apply Rltb_true in E2 | apply Rltb_false in E2];
  destruct (Rltb 0 t) eqn:E3; [apply Rltb_true in E3 | apply Rltb_false in E3
                              |apply Rltb_true in E3 | apply Rltb_false in E3];
  cbn [andb fst]; try (repeat split; try done; intros; lra).
  destruct (Rltb u 1) eqn:E4; [apply Rltb_true in E4 | apply Rltb_false in E4];
  destruct (Rltb 0 u) eqn:E5; [apply Rltb_true in E5 | apply Rltb_false in E5
                              |apply Rltb_true in E5 | apply Rltb_false in E5];
  cbn [andb fst]; try (repeat split; try done; intros; lra).
  split; [| split].
  - split; [intros _; lra | done].
  - intros _. split; [done |]. apply (cramer px py dpx dpy qx qy dqx dqy), Hc, E1.
  - intros; lra.
Qed.

End RealFacts.

(** ** The intersection test as computed, and in exact arithmetic *)

Module IntersectionFacts.
Import Real RealFacts Inputs.

(** C3 (amended).  In every arithmetic, binary64 included,
    [do_vectors_intersect] reports an intersection exactly when, as computed
    in that arithmetic, the cross product [c = dpx dqy - dpy dqx] is not
    below the tolerance 0.00001 in magnitude and the quotients
    [t = ((qx - px) dqy - (qy - py) dqx) / c] and
    [u = ((qx - px) dpy - (qy - py) dpx) / c] both compare strictly between
    0 and 1; it then returns these computed [t] and [u].  In exact
    arithmetic these are the solutions of Cramer's rule: they satisfy
    [p + t dp = q + u dq], and a solution with [t] or [u] equal to 0 or 1 is
    not reported. *)
Theorem do_vectors_intersect_computed :
  (forall (F : Type) (N : Num F) (px py dpx dpy qx qy dqx dqy : F),
     let c := sub (mul dpx dqy) (mul dpy dqx) in
     let t := div (sub (mul (sub qx px) dqy) (mul (sub qy py) dqx)) c in
     let u := div (sub (mul (sub qx px) dpy) (mul (sub qy py) dpx)) c in
     let r := do_vectors_intersect px py dpx dpy qx qy dqx dqy in
     (r.1.1 = true <->
        ltb (fabs c) (lit 0.00001) = false /\
        (ltb t (lit 1) = true /\ ltb (lit 0) t = true) /\
        (ltb u (lit 1) = true /\ ltb (lit 0) u = true)) /\
     (r.1.1 = true -> r = (true, t, u))) /\
  (forall px py dpx dpy qx qy dqx dqy : R,
     let c := (dpx * dqy - dpy * dqx)%R in
     let t := (((qx - px) * dqy - (qy - py) * dqx) / c)%R in
     let u := (((qx - px) * dpy - (qy - py) * dpx) / c)%R in
     let r := do_vectors_intersect px py dpx dpy qx qy dqx dqy in
     (r.1.1 = true <->
        (0.00001 <= Rabs c)%R /\ (0 < t < 1)%R /\ (0 < u < 1)%R) /\
     (r.1.1 = true ->
        r = (true, t, u) /\
        (px + t * dpx = qx + u * dqx)%R /\ (py + t * dpy = qy + u * dqy)%R) /\
     ((t = 0 \/ t = 1 \/ u = 0 \/ u = 1)%R -> r.1.1 = false)).
Proof.
  split.
  - intros F N px py dpx dpy qx qy dqx dqy.
    exact (intersection_reported_iff px py dpx dpy qx qy dqx dqy).
  - intros px py dpx dpy qx qy dqx dqy.
    exact (do_vectors_intersect_cramer px py dpx dpy qx qy dqx dqy).
Qed.

(** C3 (as stated) fails in binary64.  For the segments of
    [nearly_parallel] the cross product of [dp] and [dq] is -2 and Cramer's
    rule gives [t = u = 7]: the segments do not intersect, and exact
    arithmetic reports none.  In binary64 the products are rounded, the code
    reports an intersection at [t = u = 0.875], and [p + t dp] and
    [q + u dq] differ there. *)
Lemma nearly_parallel_reported :
  @nearly_parallel float Binary64.binary64_num = (true, 0.875%float, 0.875%float) /\
  (@nearly_parallel R real_num).1.1 = false /\
  (268435462 * 268435465 - 268435464 * 268435463 = -2)%R /\
  (((-7 - 0) * 268435465 - (-7 - 0) * 268435463) / -2 = 7)%R /\
  (((-7 - 0) * 268435464 - (-7 - 0) * 268435462) / -2 = 7)%R /\
  (0 + 0.875 * 268435462 <> -7 + 0.875 * 268435463)%R.
Proof.
  split; [vm_compute; reflexivity |].
  split.
  - unfold nearly_parallel.
    destruct (do_vectors_intersect_cramer (of_int 0) (of_int 0) (of_int 268435462)
                (of_int 268435464) (of_int (-7)) (of_int (-7)) (of_int 268435463)
                (of_int 268435465)) as [Hiff _].
    destruct (do_vectors_intersect _ _ _ _ _ _ _ _).1.1; [| done].
    exfalso. destruct Hiff as [Hiff _]. destruct (Hiff eq_refl) as (_ & Ht & _).
    revert Ht. unfold cross_product. cbn. lra.
  - repeat split; lra.
Qed.

End IntersectionFacts.

(** ** The direction sampler *)

Module RotationFacts.
Import Rotation.
Local Open Scope R_scope.

Lemma fmod_range (x y : R) : 0 < y -> 0 <= fmod x y < y.
Proof.
  intros Hy. unfold fmod.
  destruct (base_Int_part (x / y)) as [Hlo Hhi].
  assert (Hx : x = x / y * y) by (field; lra).
  set (q := IZR (Int_part (x / y))) in *. set (r := x / y) in *.
  split; nra.
Qed.

Lemma acos_m1 : acos (-1) = PI.
Proof. replace (-1) with (Ropp 1) by lra. rewrite acos_opp, acos_1. lra. Qed.

(** The heights stay within the domain of [arccos]. *)
Lemma height_in_domain (number : Z) (k : nat) :
  (2 <= k)%nat -> (Z.of_nat k <= number)%Z ->
  -1 <= -1 + (2 * (INR k - 1)) / (IZR number - 1) <= 1.
Proof.
  intros Hk Hn.
  assert (Hk' : 2 <= INR k) by (apply (le_INR 2); done).
  assert (Hn' : INR k <= IZR number) by (rewrite INR_IZR_INZ; apply IZR_le; done).
  assert (Hd : 0 < IZR number - 1) by lra.
  split.
  - assert (0 <= 2 * (INR k - 1) / (IZR number - 1)); [| lra].
    unfold Rdiv. apply Rmult_le_pos; [lra | apply Rlt_le, Rinv_0_lt_compat; lra].
  - assert (2 * (INR k - 1) / (IZR number - 1) <= 2); [| lra].
    apply (Rmult_le_reg_r (IZR number - 1)); [done |].
    unfold Rdiv. rewrite Rmult_assoc, Rinv_l; lra.
Qed.

Lemma angles_body_in_range (number : Z) (k : nat) (angles : list angle) :
  (2 <= k <= length angles)%nat ->
  Forall in_range angles ->
  exists angles', angles_body number k angles = Ok angles' /\
                  length angles' = length angles /\ Forall in_range angles'.
Proof.
  intros Hk Hall. unfold angles_body, index.
  destruct (lookup_lt_is_Some_2 angles (k - 2)) as [prev ->]; [lia |].
  cbn [mbind result_bind]. eexists. split; [reflexivity |].
  split; [apply length_insert |].
  apply Forall_insert; [done |]. split; cbn [fst snd].
  - apply acos_bound.
  - apply fmod_range. pose proof PI_RGT_0. lra.
Qed.

Lemma angles_loop_in_range (number : Z) (ks : list nat) :
  forall angles,
    Forall (fun k => 2 <= k <= length angles)%nat ks ->
    Forall in_range angles ->
    exists angles', for_each (angles_body number) ks angles = Ok angles' /\
                    length angles' = length angles /\ Forall in_range angles'.
Proof.
  induction ks as [| k ks IH]; intros angles Hks Hall; cbn [for_each].
  - eauto.
  - apply Forall_cons in Hks as [Hk Hks].
    destruct (angles_body_in_range number k angles Hk Hall) as (angles1 & -> & Hlen & Hall1).
    cbn [mbind result_bind].
    destruct (IH angles1) as (angles2 & -> & Hlen2 & Hall2); [| done |].
    + rewrite Hlen. done.
    + exists angles2. rewrite Hlen2, Hlen. done.
Qed.

(** C6: for every [number >= 2], [get_rotation_angles number] returns
    exactly [number] pairs, every latitude in [0, pi] and every longitude
    in [0, 2 pi); the result is a function of [number] alone, so two calls
    return the same pairs. *)
Theorem get_rotation_angles_in_range (number : Z) :
  (2 <= number)%Z ->
  (exists angles, get_rotation_angles number = Ok angles /\
                  Z.of_nat (length angles) = number /\ Forall in_range angles) /\
  (forall r1 r2, get_rotation_angles number = r1 ->
                 get_rotation_angles number = r2 -> r1 = r2).
Proof.
  intros Hn. split; [| congruence].
  unfold get_rotation_angles.
  destruct (number <? 0)%Z eqn:Hneg; [apply Z.ltb_lt in Hneg; lia |].
  set (n := Z.to_nat number).
  assert (Hn' : (2 <= n)%nat) by lia.
  unfold index.
  destruct (lookup_lt_is_Some_2 (replicate n (0, 0)) 0) as [first ->];
    [rewrite length_replicate; lia |].
  cbn [mbind result_bind].
  assert (Hzero : in_range (0, 0)).
  { pose proof PI_RGT_0. unfold in_range. cbn. lra. }
  assert (Hfirst : in_range (acos (-1), 0)).
  { pose proof PI_RGT_0. pose proof (acos_bound (-1)). unfold in_range. cbn. lra. }
  destruct (angles_loop_in_range number (seq 2 (n - 1))
              (<[0%nat := (acos (-1), 0)]> (replicate n (0, 0))))
    as (angles & -> & Hlen & Hall).
  - apply Forall_seq. intros k Hk. rewrite length_insert, length_replicate. lia.
  - apply Forall_insert; [apply Forall_replicate |]; done.
  - cbn [mbind result_bind]. eexists. split; [reflexivity |].
    rewrite length_alter, Hlen, length_insert, length_replicate.
    split; [lia |].
    apply Forall_alter; [done |].
    intros [lat lon] _ [Hlat _]. pose proof PI_RGT_0. unfold in_range. cbn in *. lra.
Qed.

(** C6 at two directions. *)
Lemma get_rotation_angles_in_range_witness :
  exists angles, get_rotation_angles 2 = Ok angles /\
                 Z.of_nat (length angles) = 2%Z /\ Forall in_range angles.
Proof. apply (get_rotation_angles_in_range 2). lia. Defined.

(** The entries of the product, as [dot] computes them. *)
Lemma rotate_to_top_entries (theta phi : R) :
  rotate_to_top theta phi =
    [[cos theta * cos (-1 * phi) + (0 * sin (-1 * phi) + (- sin theta * 0 + 0));
      cos theta * - sin (-1 * phi) + (0 * cos (-1 * phi) + (- sin theta * 0 + 0));
      cos theta * 0 + (0 * 0 + (- sin theta * 1 + 0))];
     [0 * cos (-1 * phi) + (1 * sin (-1 * phi) + (0 * 0 + 0));
      0 * - sin (-1 * phi) + (1 * cos (-1 * phi) + (0 * 0 + 0));
      0 * 0 + (1 * 0 + (0 * 1 + 0))];
     [sin theta * cos (-1 * phi) + (0 * sin (-1 * phi) + (cos theta * 0 + 0));
      sin theta * - sin (-1 * phi) + (0 * cos (-1 * phi) + (cos theta * 0 + 0));
      sin theta * 0 + (0 * 0 + (cos theta * 1 + 0))]].
Proof. reflexivity. Qed.

Lemma rotate_to_top_simplified (theta phi : R) :
  rotate_to_top theta phi =
    [[cos theta * cos phi; cos theta * sin phi; - sin theta];
     [- sin phi; cos phi; 0];
     [sin theta * cos phi; sin theta * sin phi; cos theta]].
Proof.
  rewrite rotate_to_top_entries.
  replace (-1 * phi) with (- phi) by lra. rewrite cos_neg, sin_neg.
  repeat f_equal; ring.
Qed.

(** C7: for all real [theta] and [phi], [rotate_to_top theta phi] is the
    polar rotation by [theta] times the azimuthal rotation by [- phi]; it is
    orthonormal with determinant 1, and it sends the unit direction of
    [(theta, phi)] to the pole. *)
Theorem rotate_to_top_rotation (theta phi : R) :
  rotate_to_top theta phi = dot (second_rotation theta) (first_rotation (- phi)) /\
  orthonormal (rotate_to_top theta phi) /\
  det3 (rotate_to_top theta phi) = 1 /\
  apply (rotate_to_top theta phi) (direction theta phi) = pole.
Proof.
  split.
  { unfold rotate_to_top. replace (-1 * phi) with (- phi) by lra. reflexivity. }
  rewrite rotate_to_top_simplified.
  pose proof (sin2_cos2 theta) as Ht. pose proof (sin2_cos2 phi) as Hp.
  unfold Rsqr in Ht, Hp.
  unfold orthonormal, det3, apply, direction, pole, identity3, dot, transpose,
    column, dot_vec, entry.
  cbn [map seq length nth zip_with fold_right].
  generalize dependent (sin theta). generalize dependent (cos theta).
  generalize dependent (sin phi). generalize dependent (cos phi).
  intros cp sp Hp ct st Ht.
  assert (Hp' : sp * sp = 1 - cp * cp) by lra.
  assert (Ht' : st * st = 1 - ct * ct) by lra.
  repeat split; repeat f_equal; ring [Hp' Ht'].
Qed.

(** C8 (as stated) fails: [number = 1] is below 2 and is not rejected; the
    single pair (pi, 0) is returned. *)
Lemma single_direction_accepted :
  (1 < 2)%Z /\ get_rotation_angles 1 = Ok [(PI, 0)].
Proof.
  split; [lia |]. rewrite <- acos_m1. reflexivity.
Qed.

(** C8 (amended): [get_rotation_angles] has no check of [number].  Below 2,
    a negative [number] fails when the array is allocated and 0 fails at the
    assignment of the first row, both without output; 1 is accepted and
    yields the single pair (pi, 0). *)
Theorem get_rotation_angles_small (number : Z) :
  (number < 2)%Z ->
  ((number < 0)%Z -> get_rotation_angles number = Raise ValueError) /\
  (number = 0%Z -> get_rotation_angles number = Raise (IndexError 0 0)) /\
  (number = 1%Z -> get_rotation_angles number = Ok [(PI, 0)]).
Proof.
  intros _. repeat split.
  - intros Hneg. unfold get_rotation_angles.
    apply Z.ltb_lt in Hneg. rewrite Hneg. reflexivity.
  - intros ->. reflexivity.
  - intros ->. rewrite <- acos_m1. reflexivity.
Qed.

(** The amended C8 at 0 and at 1. *)
Lemma get_rotation_angles_small_witness :
  get_rotation_angles 0 = Raise (IndexError 0 0) /\
  get_rotation_angles 1 = Ok [(PI, 0)].
Proof.
  split.
  - apply (get_rotation_angles_small 0); [lia | reflexivity].
  - apply (get_rotation_angles_small 1); [lia | reflexivity].
Defined.

End RotationFacts.

(** * Further properties of the crossing engine *)

Section LoopFacts.
Context {F : Type} `{Num F}.
Local Open Scope num_scope.
Variables (v dv : point F) (points : list (point F)) (segment_lengths : list F).
Variables (current_index comparison_index : Z).
Variables (max_segment_length : F) (jump_mode : Z).

#[local] Abbreviation body' :=
  (loop_body v dv points segment_lengths current_index comparison_index
     max_segment_length jump_mode).
#[local] Abbreviation test' := (test_segment v dv current_index comparison_index).
#[local] Abbreviation loop' :=
  (while_loop v dv points segment_lengths current_index comparison_index
     max_segment_length jump_mode).
#[local] Abbreviation zero := (Row (lit 0) (lit 0) (lit 0) (lit 0)).

(** What [test_segment] does to the buffer: row [i] alone may change. *)
Lemma test_segment_crossings (p q : point F) (st : loop_state F) :
  exists f, crossings (test' p q st) = alter f (i st) (crossings st).
Proof.
  unfold test_segment.
  destruct (do_vectors_intersect _ _ _ _ _ _ _ _) as [[[] ti] tj]; cbn [crossings].
  - eexists. apply list_alter_alter_eq.
  - exists (fun r => r). symmetry. apply list_alter_id. done.
Qed.

(** An invariant of the loop body is an invariant of the loop. *)
Lemma while_loop_invariant (P : loop_state F -> Prop) :
  (forall st st', (i st + 1 < length points)%nat -> P st -> body' st = Ok st' -> P st') ->
  forall fuel st st', P st -> loop' fuel st = Ok st' -> P st'.
Proof.
  intros Hstep. induction fuel as [| fuel IH]; intros st st' HP; cbn [while_loop];
    destruct (i st + 1 <? length points)%nat eqn:Hi; try done.
  - intros [= <-]. done.
  - apply Nat.ltb_lt in Hi.
    destruct (body' st) as [st1 | |] eqn:Hbody; cbn [mbind result_bind]; try done.
    apply IH. eapply Hstep; done.
  - intros [= <-]. done.
Qed.

(** An iteration never moves the index backwards; it stands still only in
    a jump iteration of the default mode, and the iteration after any jump
    moves it by exactly one. *)
Lemma loop_body_progress (st st' : loop_state F) :
  body' st = Ok st' ->
  (i st <= i st')%nat /\
  (i st' = i st -> already_jumped st = false /\ already_jumped st' = true) /\
  (already_jumped st = true -> i st' = (i st + 1)%nat /\ already_jumped st' = false).
Proof.
  unfold loop_body, index.
  destruct (points !! i st) as [p |]; [cbn [mbind result_bind] | done].
  destruct (_ || _) eqn:Htest.
  - destruct (points !! (i st + 1)%nat) as [q |]; [cbn [mbind result_bind] | done].
    intros [= <-]. destruct (test_segment_i v dv current_index comparison_index p q st)
      as [-> ->]. repeat split; try lia; done.
  - apply orb_false_elim in Htest as [_ Hj]. rewrite Hj.
    destruct (jump_mode =? 3)%Z; [intros [= <-]; cbn [i already_jumped]; repeat split; (lia || done) |].
    destruct (jump_mode =? 2)%Z.
    + destruct (int _) as [e | k]; [done | cbn [mbind result_bind raising]].
      intros [= <-]. cbn [i already_jumped]. repeat split; try done;
        destruct (k <? 1)%Z; lia.
    + destruct (accumulate _ _ _ _ _ _ _) as [[jumps i'] | |] eqn:Hacc;
        [cbn [mbind result_bind] | done | done].
      apply accumulate_i in Hacc. intros [= <-]. cbn [i already_jumped].
      repeat split; try done.
      destruct (1 <? jumps)%nat eqn:Hjumps; [apply Nat.ltb_lt in Hjumps |]; lia.
Qed.

(** The shape of the buffer is kept by every iteration. *)
Lemma loop_body_shape (st st' : loop_state F) :
  (i st + 1 < length points)%nat ->
  body' st = Ok st' ->
  length (crossings st') = length (crossings st) /\
  forall j, j <> i st -> crossings st' !! j = crossings st !! j.
Proof.
  intros Hi. unfold loop_body, index.
  destruct (points !! i st) as [p |]; [cbn [mbind result_bind] | done].
  destruct (_ || _).
  - destruct (points !! (i st + 1)%nat) as [q |]; [cbn [mbind result_bind] | done].
    intros [= <-]. destruct (test_segment_crossings p q st) as [f ->].
    split; [apply length_alter |]. intros j Hj. apply list_lookup_alter_ne. done.
  - destruct (jump_mode =? 3)%Z; [intros [= <-]; done |].
    destruct (jump_mode =? 2)%Z.
    + destruct (int _) as [e | k]; [done | cbn [mbind result_bind raising]].
      intros [= <-]. done.
    + destruct (accumulate _ _ _ _ _ _ _) as [[jumps i'] | |];
        [cbn [mbind result_bind] | done | done].
      intros [= <-]. done.
Qed.

(** X2: a buffer returned by [find_crossings] has one row per comparison
    point, and the row of the last point is never written: it is zero. *)
Theorem find_crossings_shape (rows : list (row F)) :
  find_crossings v dv points segment_lengths current_index comparison_index
    max_segment_length jump_mode = Ok rows ->
  length rows = length points /\
  (points <> [] -> rows !! (length points - 1)%nat = Some zero).
Proof.
  unfold find_crossings.
  destruct (loop' _ _) as [st | |] eqn:Hrun; cbn [mbind result_bind]; try done.
  intros [= <-].
  pose (P := fun st : loop_state F =>
    length (crossings st) = length points /\
    forall j, (length points <= j + 1)%nat -> crossings st !! j = zeros (length points) !! j).
  assert (HP : P st).
  { eapply (while_loop_invariant P); [| | exact Hrun].
    - intros st1 st2 Hi [Hlen Hlast] Hbody.
      destruct (loop_body_shape st1 st2 Hi Hbody) as [Hlen' Hrows].
      split; [congruence |]. intros j Hj. rewrite Hrows; [auto | lia].
    - split; [apply length_replicate | done]. }
  destruct HP as [Hlen Hlast]. split; [done |].
  intros Hne. rewrite Hlast by lia. apply lookup_replicate_2.
  destruct points; [done | cbn; lia].
Qed.


(** An iteration that raises was started inside the loop's bounds, so the
    two reads of [points] succeeded: the exception is [int]'s in jump mode
    2 and an index past the end of [segment_lengths], inside [points], in
    the default mode. *)
Lemma accumulate_raise (distance : F) (n : nat) :
  forall dt jumps i0 e,
    accumulate segment_lengths max_segment_length distance n dt jumps i0 = Raise e ->
    exists j, e = IndexError j (length segment_lengths) /\
              (i0 <= j < i0 + n)%nat /\ (length segment_lengths <= j)%nat.
Proof.
  induction n as [| n IH]; intros dt jumps i0 e; cbn [accumulate]; [done |].
  destruct (dt <? _); [| done].
  unfold index. destruct (segment_lengths !! i0) as [s |] eqn:Hs; cbn [mbind result_bind].
  - intros Hacc. apply IH in Hacc as (j & -> & Hj & Hlen). exists j. repeat split; lia.
  - intros [= <-]. exists i0. apply lookup_ge_None in Hs. repeat split; lia.
Qed.

Lemma loop_body_raise (st : loop_state F) (e : exn) :
  (i st + 1 < length points)%nat ->
  body' st = Raise e ->
  jump_mode <> 3%Z /\
  (jump_mode = 2%Z -> exists x, int x = inl e) /\
  (jump_mode <> 2%Z ->
     exists j, e = IndexError j (length segment_lengths) /\
               (length segment_lengths <= j < length points)%nat).
Proof.
  intros Hi. unfold loop_body, index.
  destruct (lookup_lt_is_Some_2 points (i st)) as [p ->]; [lia |].
  destruct (lookup_lt_is_Some_2 points (i st + 1)) as [q ->]; [lia |].
  cbn [mbind result_bind]. destruct (_ || _); [done |].
  destruct (jump_mode =? 3)%Z eqn:H3; [done |]. apply Z.eqb_neq in H3.
  destruct (jump_mode =? 2)%Z eqn:H2; [apply Z.eqb_eq in H2 | apply Z.eqb_neq in H2].
  - destruct (int _) as [e' | k] eqn:Hint; cbn [mbind result_bind raising]; [| done].
    intros [= <-]. repeat split; [done | eauto | done].
  - destruct (accumulate _ _ _ _ _ _ _) as [[jumps i'] | e' |] eqn:Hacc;
      cbn [mbind result_bind]; try done.
    intros [= <-]. apply accumulate_raise in Hacc as (j & -> & Hj & Hlen).
    repeat split; [done | done |]. intros _. exists j. split; [done | lia].
Qed.

Lemma while_loop_raise (Q : exn -> Prop) :
  (forall st e, (i st + 1 < length points)%nat -> body' st = Raise e -> Q e) ->
  forall fuel st e, loop' fuel st = Raise e -> Q e.
Proof.
  intros Hstep. induction fuel as [| fuel IH]; intros st e; cbn [while_loop];
    destruct (i st + 1 <? length points)%nat eqn:Hi; try done.
  apply Nat.ltb_lt in Hi.
  destruct (body' st) as [st1 | e1 |] eqn:Hbody; cbn [mbind result_bind]; try done.
  - apply IH.
  - intros [= <-]. eauto.
Qed.

Lemma find_crossings_raise_cases (e : exn) :
  find_crossings v dv points segment_lengths current_index comparison_index
    max_segment_length jump_mode = Raise e ->
  jump_mode <> 3%Z /\
  (jump_mode = 2%Z -> exists x, int x = inl e) /\
  (jump_mode <> 2%Z ->
     exists j, e = IndexError j (length segment_lengths) /\
               (length segment_lengths <= j < length points)%nat).
Proof.
  unfold find_crossings.
  destruct (loop' _ _) as [st | e' |] eqn:Hrun; cbn [mbind result_bind]; try done.
  intros [= <-].
  apply (while_loop_raise
           (fun e => jump_mode <> 3%Z /\
                     (jump_mode = 2%Z -> exists x, int x = inl e) /\
                     (jump_mode <> 2%Z ->
                        exists j, e = IndexError j (length segment_lengths) /\
                                  (length segment_lengths <= j < length points)%nat))
           loop_body_raise _ _ _ Hrun).
Qed.

Lemma find_crossings_ok :
  jump_mode = 3%Z \/ (jump_mode <> 2%Z /\ (length points <= length segment_lengths)%nat) ->
  exists rows,
    find_crossings v dv points segment_lengths current_index comparison_index
      max_segment_length jump_mode = Ok rows.
Proof.
  intros Hmode.
  pose proof (find_crossings_terminates v dv points segment_lengths current_index
                comparison_index max_segment_length jump_mode) as Hfuel.
  destruct (find_crossings _ _ _ _ _ _ _ _) as [rows | e |] eqn:Hrun; [eauto | | done].
  exfalso. apply find_crossings_raise_cases in Hrun as (H3 & _ & Hdefault).
  destruct Hmode as [-> | [H2 Hlen]]; [done |].
  destruct (Hdefault H2) as (j & _ & Hj). lia.
Qed.

(** X3: what [find_crossings] can raise.  Nothing in jump mode 3; in jump
    mode 2 only what [int] raises; in the default mode only [IndexError],
    for an index past the end of [segment_lengths] and inside [points].
    So jump mode 3 always returns a buffer, and the default mode does when
    there is a length for every comparison point. *)
Theorem find_crossings_exceptions :
  (forall e,
     find_crossings v dv points segment_lengths current_index comparison_index
       max_segment_length jump_mode = Raise e ->
     jump_mode <> 3%Z /\
     (jump_mode = 2%Z -> exists x, int x = inl e) /\
     (jump_mode <> 2%Z ->
        exists j, e = IndexError j (length segment_lengths) /\
                  (length segment_lengths <= j < length points)%nat)) /\
  (jump_mode = 3%Z \/
   (jump_mode <> 2%Z /\ (length points <= length segment_lengths)%nat) ->
   exists rows,
     find_crossings v dv points segment_lengths current_index comparison_index
       max_segment_length jump_mode = Ok rows).
Proof.
  split.
  - intros e. apply find_crossings_raise_cases.
  - apply find_crossings_ok.
Qed.

Lemma while_loop_more_fuel (fuel : nat) :
  forall st r extra,
    loop' fuel st = r -> r <> OutOfFuel -> loop' (fuel + extra) st = r.
Proof.
  induction fuel as [| fuel IH]; intros st r extra; cbn [while_loop Nat.add].
  - destruct (i st + 1 <? length points)%nat eqn:Hi; [intros <-; done |].
    intros <- _. destruct extra; cbn [while_loop]; rewrite Hi; done.
  - destruct (i st + 1 <? length points)%nat eqn:Hi; [| done].
    destruct (body' st) as [st1 | e |]; cbn [mbind result_bind]; [apply IH | done | done].
Qed.

(** X1: the [while] loop of [find_crossings] ends within twice [len(points)]
    iterations, in every jump mode: a larger budget of iterations is never
    used up and gives the same final state or exception. *)
Theorem find_crossings_iterations (fuel : nat) :
  (2 * length points <= fuel)%nat ->
  loop' fuel (initial_state points) <> OutOfFuel /\
  loop' fuel (initial_state points)
  = loop' (2 * length points) (initial_state points).
Proof.
  intros Hfuel.
  assert (Hend : loop' (2 * length points) (initial_state points) <> OutOfFuel).
  { destruct (decide (length points = 0)%nat) as [Hlen | Hlen].
    - assert (Hguard : (i (initial_state points) + 1 <? length points)%nat = false).
      { apply Nat.ltb_ge. lia. }
      destruct (2 * length points)%nat; cbn [while_loop]; rewrite Hguard; done.
    - apply while_loop_budget. unfold budget, initial_state.
      cbn [i already_jumped]. lia. }
  replace fuel with (2 * length points + (fuel - 2 * length points))%nat at 1 2 by lia.
  rewrite (while_loop_more_fuel _ _ _ _ eq_refl Hend). done.
Qed.

End LoopFacts.

Section ScanFacts.
Context {F : Type} `{Num F}.
Local Open Scope num_scope.
Variables (v dv : point F) (points : list (point F)).
Variables (current_index comparison_index : Z).
Variables (max_segment_length : F) (jump_mode : Z).

#[local] Abbreviation zero_row := (Row (lit 0) (lit 0) (lit 0) (lit 0)).
#[local] Abbreviation near p :=
  ((distance_to v p <? twice_max_segment_length max_segment_length) = true).

(** X5: in the jump modes 2 and 3 [segment_lengths] is not read: the result
    is the same for any two arrays of lengths. *)
Theorem segment_lengths_unread (lengths1 lengths2 : list F) :
  jump_mode = 2%Z \/ jump_mode = 3%Z ->
  find_crossings v dv points lengths1 current_index comparison_index
    max_segment_length jump_mode =
  find_crossings v dv points lengths2 current_index comparison_index
    max_segment_length jump_mode.
Proof.
  intros Hmode. unfold find_crossings.
  assert (Hbody : forall st,
    loop_body v dv points lengths1 current_index comparison_index
      max_segment_length jump_mode st =
    loop_body v dv points lengths2 current_index comparison_index
      max_segment_length jump_mode st).
  { intros st. unfold loop_body. destruct Hmode as [-> | ->]; reflexivity. }
  assert (Hloop : forall fuel st,
    while_loop v dv points lengths1 current_index comparison_index
      max_segment_length jump_mode fuel st =
    while_loop v dv points lengths2 current_index comparison_index
      max_segment_length jump_mode fuel st).
  { induction fuel as [| fuel IH]; intros st; cbn [while_loop]; [done |].
    rewrite Hbody. destruct (_ <? _)%nat; [| done].
    destruct (loop_body _ _ _ _ _ _ _ _ _); cbn [mbind result_bind]; auto. }
  rewrite Hloop. reflexivity.
Qed.

Lemma alter_as_insert {A : Type} (f : A -> A) (l : list A) (k : nat) (x : A) :
  l !! k = Some x -> alter f k l = <[k := f x]> l.
Proof.
  revert k. induction l as [| a l IH]; intros [| k]; cbn; try done.
  - intros [= ->]. done.
  - intros Hk. f_equal. apply IH. done.
Qed.

Lemma insert_middle {A : Type} (l1 l2 : list A) (x y : A) (k : nat) :
  length l1 = k -> <[k := y]> (l1 ++ x :: l2) = l1 ++ y :: l2.
Proof.
  intros <-. rewrite insert_app_r_alt by lia. rewrite Nat.sub_diag. done.
Qed.

(** Testing a segment on a row of zeros writes its [crossing_row]. *)
Lemma test_segment_zero_row (p q : point F) (st : loop_state F) :
  crossings st !! i st = Some zero_row ->
  test_segment v dv current_index comparison_index p q st =
    LoopState (i st + 1) false
      (<[i st := crossing_row v dv current_index comparison_index (i st) p q]>
         (crossings st)).
Proof.
  intros Hrow. unfold test_segment, crossing_row.
  destruct (do_vectors_intersect _ _ _ _ _ _ _ _) as [[[] ti] tj]; f_equal.
  - rewrite list_alter_alter_eq, (alter_as_insert _ _ _ _ Hrow). reflexivity.
  - symmetry. apply list_insert_id. done.
Qed.

(** The loop writes [segment_rows] when every segment it skips has a
    [crossing_row] of zeros; it skips only in jump mode 3, at a far point. *)
Lemma while_loop_scan :
  (forall j p q, points !! j = Some p -> points !! (j + 1)%nat = Some q ->
     near p \/
     (jump_mode = 3%Z /\
      crossing_row v dv current_index comparison_index j p q = zero_row)) ->
  forall segment_lengths rest pre done jumped fuel,
    points = pre ++ rest ->
    length done = length pre ->
    (length rest <= fuel)%nat ->
    exists st',
      while_loop v dv points segment_lengths current_index comparison_index
        max_segment_length jump_mode fuel
        (LoopState (length pre) jumped (done ++ zeros (length rest))) = Ok st' /\
      crossings st' = done ++ segment_rows v dv current_index comparison_index
                                (length pre) rest.
Proof.
  intros Hskip segment_lengths.
  induction rest as [| p rest IH]; intros pre done jumped fuel Hpoints Hdone Hfuel.
  { exists (LoopState (length pre) jumped (done ++ zeros 0)).
    split; [| done]. destruct fuel; cbn [while_loop i];
      replace (length pre + 1 <? length points)%nat with false; try done;
      symmetry; apply Nat.ltb_ge; rewrite Hpoints, length_app; cbn; lia. }
  destruct rest as [| q rest].
  { exists (LoopState (length pre) jumped (done ++ zeros 1)).
    split; [| done]. destruct fuel; cbn [while_loop i];
      replace (length pre + 1 <? length points)%nat with false; try done;
      symmetry; apply Nat.ltb_ge; rewrite Hpoints, length_app; cbn; lia. }
  destruct fuel as [| fuel]; [cbn in Hfuel; lia |].
  assert (Hp : points !! length pre = Some p).
  { rewrite Hpoints. apply list_lookup_middle. done. }
  assert (Hq : points !! (length pre + 1)%nat = Some q).
  { rewrite Hpoints, lookup_app_r by lia.
    replace (length pre + 1 - length pre)%nat with 1%nat by lia. done. }
  assert (Hrow : (done ++ zeros (length (p :: q :: rest))) !! length pre
                 = Some zero_row).
  { rewrite <- Hdone. apply list_lookup_middle. done. }
  assert (Hnext : forall jumped' row,
    exists st',
      while_loop v dv points segment_lengths current_index comparison_index
        max_segment_length jump_mode fuel
        (LoopState (length pre + 1) jumped'
           (done ++ row :: zeros (length (q :: rest)))) = Ok st' /\
      crossings st' = done ++ row :: segment_rows v dv current_index comparison_index
                                       (S (length pre)) (q :: rest)).
  { intros jumped' row.
    destruct (IH (pre ++ [p]) (done ++ [row]) jumped' fuel) as (st' & Hrun & Hrows).
    - rewrite Hpoints, <- app_assoc. done.
    - rewrite !length_app, Hdone. done.
    - cbn in Hfuel |- *. lia.
    - exists st'. rewrite length_app in Hrun, Hrows. cbn [length] in Hrun, Hrows.
      rewrite <- app_assoc in Hrun, Hrows. cbn [app] in Hrun, Hrows.
      rewrite Nat.add_1_r in Hrows. split; [exact Hrun | exact Hrows]. }
  cbn [while_loop i].
  replace (length pre + 1 <? length points)%nat with true
    by (symmetry; apply Nat.ltb_lt; rewrite Hpoints, length_app; cbn; lia).
  unfold loop_body at 1. unfold index. cbn [i already_jumped crossings].
  rewrite Hp. cbn [mbind result_bind].
  assert (Htest :
    exists st', (Ok (test_segment v dv current_index comparison_index p q
                       (LoopState (length pre) jumped
                          (done ++ zeros (length (p :: q :: rest)))))
                 ≫= while_loop v dv points segment_lengths current_index
                      comparison_index max_segment_length jump_mode fuel) = Ok st' /\
      crossings st' = done ++ segment_rows v dv current_index comparison_index
                                (length pre) (p :: q :: rest)).
  { rewrite test_segment_zero_row by exact Hrow. cbn [i crossings mbind result_bind].
    cbn [length zeros replicate]. rewrite (insert_middle _ _ _ _ _ Hdone).
    cbn [segment_rows]. apply Hnext. }
  destruct (distance_to v p <? twice_max_segment_length max_segment_length) eqn:Hnear;
    cbn [orb]; [rewrite Hq; exact Htest |].
  destruct jumped; [rewrite Hq; exact Htest |].
  destruct (Hskip (length pre) p q Hp Hq) as [Hnear' | [-> Hzero]]; [congruence |].
  cbn [Z.eqb Pos.eqb mbind result_bind].
  cbn [segment_rows]. rewrite Hzero. apply (Hnext true zero_row).
Qed.

(** X4: when every comparison point is closer to the query point than twice
    [max_segment_length], every segment is tested: the result is
    [segment_rows], whatever the jump mode and the segment lengths. *)
Theorem find_crossings_near (segment_lengths : list F) :
  Forall (fun p => near p) points ->
  find_crossings v dv points segment_lengths current_index comparison_index
    max_segment_length jump_mode
  = Ok (segment_rows v dv current_index comparison_index 0 points).
Proof.
  intros Hnear. unfold find_crossings, initial_state.
  destruct (while_loop_scan) with (segment_lengths := segment_lengths)
    (rest := points) (pre := @nil (point F)) (done := @nil (row F))
    (jumped := false) (fuel := (2 * length points)%nat)
    as (st' & Hrun & Hrows); try done; try lia.
  - intros j p q Hp _. left. rewrite Forall_lookup in Hnear. eauto.
  - cbn [length app] in Hrun. rewrite Hrun. cbn [mbind result_bind]. rewrite Hrows. done.
Qed.

End ScanFacts.

Section ScanInvariant.
Context {F : Type} `{Num F}.
Local Open Scope num_scope.
Variables (v dv : point F) (points : list (point F)) (segment_lengths : list F).
Variables (current_index comparison_index : Z).
Variables (max_segment_length : F) (jump_mode : Z).

#[local] Abbreviation body2 :=
  (loop_body v dv points segment_lengths current_index comparison_index
     max_segment_length jump_mode).
#[local] Abbreviation loop2 :=
  (while_loop v dv points segment_lengths current_index comparison_index
     max_segment_length jump_mode).
#[local] Abbreviation zero2 := (Row (lit 0) (lit 0) (lit 0) (lit 0)).
#[local] Abbreviation scan := (segment_rows v dv current_index comparison_index).
#[local] Abbreviation far p :=
  ((distance_to v p <? twice_max_segment_length max_segment_length) = false).

Lemma segment_rows_length (pts : list (point F)) :
  forall j, length (scan j pts) = length pts.
Proof.
  induction pts as [| p pts IH]; intros j; [done |].
  destruct pts as [| q pts]; [done |].
  change (S (length (scan (S j) (q :: pts))) = S (length (q :: pts))).
  rewrite IH. done.
Qed.

Lemma segment_rows_lookup (pts : list (point F)) :
  forall j k p q,
    pts !! k = Some p -> pts !! (k + 1)%nat = Some q ->
    scan j pts !! k
    = Some (crossing_row v dv current_index comparison_index (j + k) p q).
Proof.
  induction pts as [| p0 pts IH]; intros j k p q Hp Hq; [done |].
  destruct pts as [| q0 pts]; [destruct k; done |].
  destruct k as [| k].
  - cbn in Hp, Hq. injection Hp as ->. injection Hq as ->.
    rewrite Nat.add_0_r. done.
  - change (scan (S j) (q0 :: pts) !! k
            = Some (crossing_row v dv current_index comparison_index (j + S k) p q)).
    rewrite (IH (S j) k p q Hp Hq). do 2 f_equal. lia.
Qed.

Lemma segment_rows_last_at (pts : list (point F)) :
  forall j k, length pts = S k -> scan j pts !! k = Some zero2.
Proof.
  induction pts as [| p pts IH]; intros j k Hlen; [done |].
  destruct pts as [| q pts].
  - injection Hlen as <-. done.
  - destruct k as [| k]; [done |].
    change (scan (S j) (q :: pts) !! k = Some zero2).
    apply IH. cbn in Hlen |- *. lia.
Qed.

Lemma segment_rows_last (pts : list (point F)) :
  forall j, pts <> [] -> scan j pts !! (length pts - 1)%nat = Some zero2.
Proof.
  intros j Hne. apply segment_rows_last_at.
  destruct pts; [done | cbn; lia].
Qed.

(** An iteration either tests segment [i] or, at a far point and not after
    a jump, leaves the buffer as it is. *)
Lemma loop_body_cases (st st' : loop_state F) :
  body2 st = Ok st' ->
  (exists p q, points !! i st = Some p /\ points !! (i st + 1)%nat = Some q /\
               st' = test_segment v dv current_index comparison_index p q st) \/
  (exists p, points !! i st = Some p /\ far p /\ already_jumped st = false /\
             crossings st' = crossings st).
Proof.
  unfold loop_body, index.
  destruct (points !! i st) as [p |]; [cbn [mbind result_bind] | done].
  destruct (distance_to v p <? _) eqn:Hfar; cbn [orb].
  { destruct (points !! (i st + 1)%nat) as [q |]; [cbn [mbind result_bind] | done].
    intros [= <-]. left. eauto. }
  destruct (already_jumped st) eqn:Hj.
  { destruct (points !! (i st + 1)%nat) as [q |]; [cbn [mbind result_bind] | done].
    intros [= <-]. left. eauto. }
  intros Hbody. right. exists p. repeat split; try done.
  revert Hbody. destruct (jump_mode =? 3)%Z; [intros [= <-]; done |].
  destruct (jump_mode =? 2)%Z.
  - destruct (int _) as [e | k]; [done | cbn [mbind result_bind raising]].
    intros [= <-]. done.
  - destruct (accumulate _ _ _ _ _ _ _) as [[jumps i'] | |];
      [cbn [mbind result_bind] | done | done].
    intros [= <-]. done.
Qed.

Lemma while_loop_exit (fuel : nat) :
  forall st st', loop2 fuel st = Ok st' -> (length points <= i st' + 1)%nat.
Proof.
  induction fuel as [| fuel IH]; intros st st'; cbn [while_loop];
    destruct (i st + 1 <? length points)%nat eqn:Hi; try done.
  - intros [= <-]. apply Nat.ltb_ge in Hi. done.
  - destruct (body2 st) as [st1 | |]; cbn [mbind result_bind]; try done. apply IH.
  - intros [= <-]. apply Nat.ltb_ge in Hi. done.
Qed.

(** If every segment that an iteration steps over without a test has a
    [crossing_row] of zeros, the buffer returned is [segment_rows]. *)
Lemma find_crossings_scan (rows : list (row F)) :
  (forall st st' p,
     (i st + 1 < length points)%nat ->
     points !! i st = Some p -> far p -> already_jumped st = false ->
     body2 st = Ok st' ->
     forall j, (i st <= j < i st')%nat -> (j + 1 < length points)%nat ->
               scan 0%nat points !! j = Some zero2) ->
  find_crossings v dv points segment_lengths current_index comparison_index
    max_segment_length jump_mode = Ok rows ->
  rows = scan 0%nat points.
Proof.
  intros Hskip. unfold find_crossings.
  destruct (loop2 _ _) as [st | |] eqn:Hrun; cbn [mbind result_bind]; try done.
  intros [= <-].
  pose (P := fun st : loop_state F =>
    length (crossings st) = length points /\
    forall j, (j < length points)%nat ->
      crossings st !! j = if (j <? i st)%nat then scan 0%nat points !! j else Some zero2).
  assert (HP : P st).
  { eapply (while_loop_invariant _ _ _ _ _ _ _ _ P); [| | exact Hrun].
    - intros st1 st2 Hi [Hlen Hrows] Hbody. unfold P.
      destruct (loop_body_cases st1 st2 Hbody)
        as [(p & q & Hp & Hq & ->) | (p & Hp & Hfar & Hj & Hsame)].
      + assert (Hzero : crossings st1 !! i st1 = Some zero2).
        { rewrite Hrows by lia. rewrite Nat.ltb_irrefl. done. }
        rewrite (test_segment_zero_row _ _ _ _ _ _ _ Hzero). cbn [i crossings].
        split; [rewrite length_insert; done |]. intros j Hjlen.
        destruct (decide (j = i st1)) as [-> | Hne].
        * rewrite list_lookup_insert_eq by lia.
          replace (i st1 <? i st1 + 1)%nat with true by (symmetry; apply Nat.ltb_lt; lia).
          symmetry. apply (segment_rows_lookup points 0 (i st1) p q Hp Hq).
        * rewrite list_lookup_insert_ne by done. rewrite Hrows by done.
          destruct (j <? i st1)%nat eqn:Hlt;
            [apply Nat.ltb_lt in Hlt | apply Nat.ltb_ge in Hlt].
          -- replace (j <? i st1 + 1)%nat with true by (symmetry; apply Nat.ltb_lt; lia).
             done.
          -- replace (j <? i st1 + 1)%nat with false by (symmetry; apply Nat.ltb_ge; lia).
             done.
      + rewrite Hsame. split; [done |]. intros j Hjlen. rewrite Hrows by done.
        destruct (loop_body_progress _ _ _ _ _ _ _ _ _ _ Hbody) as [Hle _].
        destruct (j <? i st1)%nat eqn:Hlt;
          [apply Nat.ltb_lt in Hlt | apply Nat.ltb_ge in Hlt].
        * replace (j <? i st2)%nat with true by (symmetry; apply Nat.ltb_lt; lia). done.
        * destruct (j <? i st2)%nat eqn:Hlt2; [apply Nat.ltb_lt in Hlt2 | done].
          symmetry. destruct (decide (j + 1 < length points)%nat) as [Hin | Hout].
          -- apply (Hskip st1 st2 p Hi Hp Hfar Hj Hbody j); [lia | done].
          -- replace j with (length points - 1)%nat by lia.
             apply segment_rows_last. intros Hnil. rewrite Hnil in Hjlen. cbn in Hjlen. lia.
    - unfold P, initial_state. cbn [i crossings].
      split; [apply length_replicate |]. intros j Hj.
      apply lookup_replicate_2. done. }
  destruct HP as [Hlen Hrows]. apply while_loop_exit in Hrun.
  apply list_eq. intros j.
  destruct (decide (j < length points)%nat) as [Hj | Hj].
  - rewrite Hrows by done.
    destruct (j <? i st)%nat eqn:Hlt; [done | apply Nat.ltb_ge in Hlt].
    symmetry. replace j with (length points - 1)%nat by lia.
    apply segment_rows_last. intros Hnil. rewrite Hnil in Hj. cbn in Hj. lia.
  - rewrite !lookup_ge_None_2; [done | |]; [rewrite segment_rows_length | rewrite Hlen]; lia.
Qed.

End ScanInvariant.

(** * The crossing engine over the real numbers: geometry of the jumps *)

Module RealScan.
Import Real RealFacts.
Local Open Scope R_scope.
#[local] Abbreviation sqrt := R_sqrt.sqrt.

(** [mag_difference] is the Euclidean distance of the planar projections. *)
Lemma mag_difference_dist (a b : point R) :
  mag_difference a b = dist_euc (px b) (py b) (px a) (py a).
Proof. reflexivity. Qed.

Lemma distance_to_mag (v p : point R) : distance_to v p = mag_difference p v.
Proof. reflexivity. Qed.

(** X7: over the real numbers [mag_difference] is a metric on the planar
    projections: not negative, symmetric, zero exactly for points with the
    same x and y, and it obeys the triangle inequality. *)
Theorem mag_difference_metric (a b c : point R) :
  0 <= mag_difference a b /\
  mag_difference a b = mag_difference b a /\
  (mag_difference a b = 0 <-> px a = px b /\ py a = py b) /\
  mag_difference a c <= mag_difference a b + mag_difference b c.
Proof.
  rewrite !mag_difference_dist. split; [| split; [| split; [split |]]].
  - apply sqrt_pos.
  - apply distance_symm.
  - unfold dist_euc. intros Hzero.
    apply sqrt_eq_0 in Hzero; [| apply Rplus_le_le_0_compat; apply Rle_0_sqr].
    apply Rplus_sqr_eq_0 in Hzero as [Hx Hy]. split; lra.
  - intros [-> ->]. apply distance_refl.
  - rewrite (distance_symm (px c)), (distance_symm (px b) (py b) (px a)),
      (distance_symm (px c) (py c) (px b)).
    apply triangle.
Qed.

Lemma sqrt_scale (t x y : R) :
  0 <= t -> sqrt ((t * x) * (t * x) + (t * y) * (t * y)) = t * sqrt (x * x + y * y).
Proof.
  intros Ht. replace ((t * x) * (t * x) + (t * y) * (t * y))
    with ((t * t) * (x * x + y * y)) by ring.
  rewrite sqrt_mult; [| nra | nra]. rewrite sqrt_square by done. done.
Qed.

(** Two segments whose lengths add up to no more than the distance of their
    starting points do not cross in their interiors, so no intersection is
    reported. *)
Lemma no_intersection_apart (vx vy dvx dvy px py dqx dqy a b : R) :
  sqrt (dvx * dvx + dvy * dvy) <= a ->
  sqrt (dqx * dqx + dqy * dqy) <= b ->
  a + b <= sqrt ((vx - px) * (vx - px) + (vy - py) * (vy - py)) ->
  (do_vectors_intersect vx vy dvx dvy px py dqx dqy).1.1 = false.
Proof.
  intros Ha Hb Hfar.
  destruct (do_vectors_intersect vx vy dvx dvy px py dqx dqy).1.1 eqn:Hflag; [| done].
  exfalso.
  destruct (intersection_reported_iff vx vy dvx dvy px py dqx dqy) as [Hiff _].
  cbv zeta in Hiff. apply Hiff in Hflag as (Hc & [Ht1 Ht0] & [Hu1 Hu0]).
  rewrite real_tolerance in Hc. rewrite lit_1 in Ht1, Hu1. rewrite lit_0 in Ht0, Hu0.
  apply Rltb_false in Hc. apply Rltb_true in Ht1, Ht0, Hu1, Hu0.
  set (c := cross_product dvx dvy dqx dqy) in *.
  set (t := div (cross_product (sub px vx) (sub py vy) dqx dqy) c) in *.
  set (u := div (cross_product (sub px vx) (sub py vy) dvx dvy) c) in *.
  assert (Hc0 : c <> 0).
  { intros Hc0. change (0.00001 <= Rabs c) in Hc. rewrite Hc0, Rabs_R0 in Hc. lra. }
  destruct (cramer vx vy dvx dvy px py dqx dqy Hc0) as [Hx Hy].
  fold c in Hx, Hy. change (vx + t * dvx = px + u * dqx) in Hx.
  change (vy + t * dvy = py + u * dqy) in Hy.
  pose proof (triangle vx vy px py (vx + t * dvx) (vy + t * dvy)) as Htri.
  unfold dist_euc, Rsqr in Htri.
  replace ((vx - (vx + t * dvx)) * (vx - (vx + t * dvx)) +
           (vy - (vy + t * dvy)) * (vy - (vy + t * dvy)))
    with ((t * dvx) * (t * dvx) + (t * dvy) * (t * dvy)) in Htri by ring.
  replace (vx + t * dvx - px) with (u * dqx) in Htri by lra.
  replace (vy + t * dvy - py) with (u * dqy) in Htri by lra.
  rewrite !sqrt_scale in Htri by lra.
  pose proof (sqrt_pos (dvx * dvx + dvy * dvy)) as HA.
  pose proof (sqrt_pos (dqx * dqx + dqy * dqy)) as HB.
  set (A := sqrt (dvx * dvx + dvy * dvy)) in *.
  set (B := sqrt (dqx * dqx + dqy * dqy)) in *.
  set (d := sqrt ((vx - px) * (vx - px) + (vy - py) * (vy - py))) in *.
  assert (H1 : t * A <= t * a) by (apply Rmult_le_compat_l; lra).
  assert (H2 : u * B <= u * b) by (apply Rmult_le_compat_l; lra).
  assert (H3 : 0 <= (1 - t) * a) by (apply Rmult_le_pos; lra).
  assert (H4 : 0 <= (1 - u) * b) by (apply Rmult_le_pos; lra).
  assert (H5 : (1 - t) * a = 0) by lra.
  apply Rmult_integral in H5 as [H5 | H5]; [lra |].
  assert (HA0 : A = 0) by lra. unfold A in HA0.
  apply sqrt_eq_0 in HA0; [| nra].
  assert (dvx = 0) by nra. assert (dvy = 0) by nra.
  apply Hc0. unfold c, cross_product. cbn. subst dvx dvy. ring.
Qed.


Lemma lit_0' : Q2R 0 = 0.
Proof. unfold Q2R. cbn. lra. Qed.

Lemma Int_part_IZR (z : Z) : Int_part (IZR z) = z.
Proof.
  unfold Int_part. rewrite <- (tech_up (IZR z) (z + 1)); [lia | |];
    rewrite plus_IZR; lra.
Qed.

Lemma Rtrunc_IZR (z : Z) : Rtrunc (IZR z) = z.
Proof.
  unfold Rtrunc. destruct (Rlt_dec (IZR z) 0).
  - rewrite <- opp_IZR, Int_part_IZR. lia.
  - apply Int_part_IZR.
Qed.

Lemma length_at_read (segment_lengths : list R) (j : nat) (s : R) :
  segment_lengths !! j = Some s -> length_at segment_lengths j = s.
Proof. unfold length_at. intros ->. done. Qed.

Lemma path_length_shift (segment_lengths : list R) (a c : nat) :
  path_length segment_lengths a (S c)
  = length_at segment_lengths a + path_length segment_lengths (a + 1) c.
Proof.
  induction c as [| c IH].
  - cbn. rewrite Nat.add_0_r. lra.
  - change (path_length segment_lengths a (S (S c)))
      with (path_length segment_lengths a (S c)
            + length_at segment_lengths (a + S c)).
    rewrite IH. cbn [path_length].
    replace (a + 1 + c)%nat with (a + S c)%nat by lia. lra.
Qed.

Section Exact.
Variables (v dv : point R) (points : list (point R)) (segment_lengths : list R).
Variables (current_index comparison_index : Z).
Variables (max_segment_length : R) (jump_mode : Z).

(** The planar length of the query segment and of every comparison segment
    is at most [max_segment_length]. *)
Hypothesis query_bounded : mag_difference (Point 0 0 0) dv <= max_segment_length.
Hypothesis segments_bounded :
  forall j p q, points !! j = Some p -> points !! (j + 1)%nat = Some q ->
                mag_difference p q <= max_segment_length.

#[local] Abbreviation zero := (Row (lit 0) (lit 0) (lit 0) (lit 0) : row R).
#[local] Abbreviation scan := (segment_rows v dv current_index comparison_index).
#[local] Abbreviation body :=
  (loop_body v dv points segment_lengths current_index comparison_index
     max_segment_length jump_mode).

Lemma query_norm : sqrt (px dv * px dv + py dv * py dv) <= max_segment_length.
Proof.
  revert query_bounded. unfold mag_difference, pow2. cbn.
  rewrite !Rminus_0_r. done.
Qed.

(** A segment starting at least [max_segment_length + b] from the query
    point, of planar length at most [b], has a row of zeros. *)
Lemma apart_row (j : nat) (p q : point R) (b : R) :
  mag_difference p q <= b ->
  max_segment_length + b <= distance_to v p ->
  crossing_row v dv current_index comparison_index j p q = zero.
Proof.
  intros Hb Hfar.
  assert (Hflag : (do_vectors_intersect (px v) (py v) (px dv) (py dv) (px p) (py p)
                     (px q - px p) (py q - py p)).1.1 = false).
  { apply (no_intersection_apart _ _ _ _ _ _ _ _ max_segment_length b);
      [apply query_norm | exact Hb | exact Hfar]. }
  unfold crossing_row.
  change (sub (px q) (px p)) with (px q - px p).
  change (sub (py q) (py p)) with (py q - py p).
  destruct (do_vectors_intersect _ _ _ _ _ _ _ _) as [[flag ti] tj].
  cbn in Hflag. subst flag. done.
Qed.

Lemma far_row (j : nat) (p q : point R) :
  points !! j = Some p -> points !! (j + 1)%nat = Some q ->
  2 * max_segment_length <= distance_to v p ->
  scan 0%nat points !! j = Some zero.
Proof.
  intros Hp Hq Hfar.
  rewrite (segment_rows_lookup v dv current_index comparison_index points 0 j p q Hp Hq).
  f_equal. apply (apart_row _ p q max_segment_length); [eauto | lra].
Qed.

(** Along the strand the distance to the query point drops by at most
    [max_segment_length] per segment. *)
Lemma chain_far (n : nat) :
  forall k p p',
    points !! k = Some p -> points !! (k + n)%nat = Some p' ->
    distance_to v p - INR n * max_segment_length <= distance_to v p'.
Proof.
  induction n as [| n IH]; intros k p p' Hp Hp'.
  - rewrite Nat.add_0_r in Hp'. replace p' with p by congruence. cbn. lra.
  - destruct (lookup_lt_is_Some_2 points (k + n)) as [p1 Hp1].
    { apply lookup_lt_Some in Hp'. lia. }
    specialize (IH k p p1 Hp Hp1).
    replace (k + S n)%nat with (k + n + 1)%nat in Hp' by lia.
    pose proof (segments_bounded _ _ _ Hp1 Hp') as Hseg.
    pose proof (triangle (px v) (py v) (px p1) (py p1) (px p') (py p')) as Htri.
    change (distance_to v p1 <= distance_to v p' + mag_difference p1 p') in Htri.
    rewrite S_INR. lra.
Qed.


Lemma far_test (p : point R) :
  ltb (distance_to v p) (twice_max_segment_length max_segment_length) = false ->
  2 * max_segment_length <= distance_to v p.
Proof. intros Hfar. apply Rltb_false in Hfar. exact Hfar. Qed.

(** The segments stepped over by the jump modes 2 and 3 start at least
    twice [max_segment_length] from the query point. *)
Lemma skipped_rows_zero (st st' : loop_state R) (p : point R) :
  jump_mode = 2%Z \/ jump_mode = 3%Z ->
  (i st + 1 < length points)%nat ->
  points !! i st = Some p ->
  ltb (distance_to v p) (twice_max_segment_length max_segment_length) = false ->
  already_jumped st = false ->
  body st = Ok st' ->
  forall j, (i st <= j < i st')%nat -> (j + 1 < length points)%nat ->
            scan 0%nat points !! j = Some zero.
Proof.
  intros Hmode Hi Hp Hfar Hj. unfold loop_body, index.
  rewrite Hp. cbn [mbind result_bind]. rewrite Hfar, Hj. cbn [orb].
  apply far_test in Hfar. set (D := distance_to v p) in *.
  destruct Hmode as [-> | ->]; cbn [Z.eqb Pos.eqb].
  - change (int (sub (floor (div D max_segment_length)) (of_int 1)))
      with (@inr exn Z (Rtrunc (IZR (Int_part (D / max_segment_length)) - 1))).
    cbn [mbind result_bind raising].
    set (k := Rtrunc (IZR (Int_part (D / max_segment_length)) - 1)).
    intros [= <-] j Hrange Hlen. cbn [i] in Hrange.
    destruct (lookup_lt_is_Some_2 points j) as [pj Hpj]; [lia |].
    destruct (lookup_lt_is_Some_2 points (j + 1)) as [qj Hqj]; [lia |].
    apply (far_row j pj qj Hpj Hqj).
    destruct (Rle_or_lt max_segment_length 0) as [Hm | Hm].
    { pose proof (sqrt_pos ((px v - px pj) * (px v - px pj)
                            + (py v - py pj) * (py v - py pj))) as Hpos.
      change (0 <= distance_to v pj) in Hpos. lra. }
    pose proof (chain_far (j - i st) (i st) p pj Hp) as Hchain.
    replace (i st + (j - i st))%nat with j in Hchain by lia.
    specialize (Hchain Hpj). fold D in Hchain.
    destruct (decide (j = i st)) as [-> | Hne].
    { rewrite Nat.sub_diag in Hchain. change (INR 0) with 0 in Hchain. lra. }
    assert (Hk : k = (Int_part (D / max_segment_length) - 1)%Z).
    { unfold k. rewrite <- minus_IZR. apply Rtrunc_IZR. }
    destruct (base_Int_part (D / max_segment_length)) as [Hfloor _].
    assert (Hsteps : (Z.of_nat (j - i st) <= k - 1)%Z).
    { destruct (k <? 1)%Z eqn:Hk1; [apply Z.ltb_lt in Hk1 | apply Z.ltb_ge in Hk1]; lia. }
    apply IZR_le in Hsteps. rewrite <- INR_IZR_INZ, minus_IZR, Hk, minus_IZR in Hsteps.
    assert (HD : D = D / max_segment_length * max_segment_length) by (field; lra).
    assert (INR (j - i st) * max_segment_length
            <= (D / max_segment_length - 2) * max_segment_length).
    { apply Rmult_le_compat_r; lra. }
    lra.
  - cbn [mbind result_bind]. intros [= <-] j Hrange Hlen. cbn [i] in Hrange.
    replace j with (i st) by lia.
    destruct (lookup_lt_is_Some_2 points (i st + 1)) as [q Hq]; [lia |].
    apply (far_row (i st) p q Hp Hq Hfar).
Qed.

(** X8: over the real numbers the jump modes 2 and 3 lose nothing when
    [max_segment_length] bounds the planar length of the query segment and
    of every comparison segment: the result is [segment_rows], the buffer
    of the scan that tests every segment.  In jump mode 2 the bound is
    positive: the source divides the distance by it, and with 0 the quotient
    is infinite or NaN and [int] raises, which exact arithmetic does not
    show. *)
Theorem jump_modes_exact :
  jump_mode = 3%Z \/ (jump_mode = 2%Z /\ 0 < max_segment_length) ->
  find_crossings v dv points segment_lengths current_index comparison_index
    max_segment_length jump_mode
  = Ok (scan 0%nat points).
Proof.
  intros Hpos.
  assert (Hmode : jump_mode = 2%Z \/ jump_mode = 3%Z)
    by (destruct Hpos as [? | [? _]]; auto).
  pose proof (find_crossings_terminates v dv points segment_lengths current_index
                comparison_index max_segment_length jump_mode) as Hfuel.
  destruct (find_crossings _ _ _ _ _ _ _ _) as [rows | e |] eqn:Hrun; [| | done].
  - f_equal. revert Hrun. apply find_crossings_scan.
    intros st st' p Hi Hp Hfar Hj Hbody. eapply skipped_rows_zero; eauto.
  - exfalso. apply find_crossings_raise_cases in Hrun as (H3 & H2 & _).
    destruct Hmode as [Hmode | Hmode]; [| done].
    destruct (H2 Hmode) as [x Hx]. discriminate Hx.
Qed.


(** Each length of [segment_lengths] is at least the planar length of its
    segment. *)
Hypothesis lengths_bound :
  forall j s p q, segment_lengths !! j = Some s ->
                  points !! j = Some p -> points !! (j + 1)%nat = Some q ->
                  mag_difference p q <= s.

(** Before each of its steps the accumulation was short of
    [distance - max_segment_length], and the step read a length. *)
Lemma accumulate_sums (distance : R) (n : nat) :
  forall dt jumps i0 jumps' i',
    accumulate segment_lengths max_segment_length distance n dt jumps i0
      = Ok (jumps', i') ->
    forall c, (c < jumps' - jumps)%nat ->
      is_Some (segment_lengths !! (i0 + c)%nat) /\
      dt + path_length segment_lengths i0 c < distance - max_segment_length.
Proof.
  induction n as [| n IH]; intros dt jumps i0 jumps' i'; cbn [accumulate].
  { intros [= <- <-] c Hc. lia. }
  destruct (ltb dt (sub distance max_segment_length)) eqn:Hcond;
    [| intros [= <- <-] c Hc; lia].
  apply Rltb_true in Hcond. change (dt < distance - max_segment_length) in Hcond.
  unfold index. destruct (segment_lengths !! i0) as [s |] eqn:Hs; [| done].
  cbn [mbind result_bind]. intros Hacc c Hc.
  pose proof (accumulate_i _ _ _ _ _ _ _ _ _ Hacc) as [Hjumps _].
  destruct c as [| c].
  - rewrite Nat.add_0_r, Hs. split; [eauto |]. cbn. lra.
  - destruct (IH _ _ _ _ _ Hacc c) as [Hread Hsum]; [lia |].
    replace (i0 + S c)%nat with (i0 + 1 + c)%nat by lia. split; [done |].
    rewrite path_length_shift, (length_at_read _ _ _ Hs).
    change (add dt s) with (dt + s) in Hsum. lra.
Qed.

Lemma chain_path (c : nat) :
  forall k p p',
    points !! k = Some p -> points !! (k + c)%nat = Some p' ->
    (forall l, (l < c)%nat -> is_Some (segment_lengths !! (k + l)%nat)) ->
    distance_to v p - path_length segment_lengths k c <= distance_to v p'.
Proof.
  induction c as [| c IH]; intros k p p' Hp Hp' Hreads.
  - rewrite Nat.add_0_r in Hp'. replace p' with p by congruence. cbn. lra.
  - destruct (lookup_lt_is_Some_2 points (k + c)) as [p1 Hp1].
    { apply lookup_lt_Some in Hp'. lia. }
    assert (IHc : distance_to v p - path_length segment_lengths k c <= distance_to v p1).
    { apply IH; [done | done |]. intros l Hl. apply Hreads. lia. }
    replace (k + S c)%nat with (k + c + 1)%nat in Hp' by lia.
    destruct (Hreads c) as [s Hs]; [lia |].
    pose proof (lengths_bound _ _ _ _ Hs Hp1 Hp') as Hseg.
    pose proof (triangle (px v) (py v) (px p1) (py p1) (px p') (py p')) as Htri.
    change (distance_to v p1 <= distance_to v p' + mag_difference p1 p') in Htri.
    cbn [path_length]. rewrite (length_at_read _ _ _ Hs). lra.
Qed.

(** The segments stepped over by the default jump mode. *)
Lemma skipped_rows_zero_default (st st' : loop_state R) (p : point R) :
  jump_mode <> 2%Z -> jump_mode <> 3%Z ->
  (i st + 1 < length points)%nat ->
  points !! i st = Some p ->
  ltb (distance_to v p) (twice_max_segment_length max_segment_length) = false ->
  already_jumped st = false ->
  body st = Ok st' ->
  forall j, (i st <= j < i st')%nat -> (j + 1 < length points)%nat ->
            scan 0%nat points !! j = Some zero.
Proof.
  intros H2 H3 Hi Hp Hfar Hj. unfold loop_body, index.
  rewrite Hp. cbn [mbind result_bind]. rewrite Hfar, Hj. cbn [orb].
  apply far_test in Hfar. set (D := distance_to v p) in *.
  apply Z.eqb_neq in H2, H3. rewrite H2, H3.
  destruct (accumulate _ _ _ _ _ _ _) as [[jumps i'] | |] eqn:Hacc; try done.
  cbn [mbind result_bind]. intros [= <-] j Hrange Hlen. cbn [i] in Hrange.
  pose proof (accumulate_i _ _ _ _ _ _ _ _ _ Hacc) as [_ Hi'].
  pose proof (accumulate_sums _ _ _ _ _ _ _ Hacc) as Hsums.
  rewrite Nat.sub_0_r in Hi', Hsums.
  destruct (lookup_lt_is_Some_2 points j) as [pj Hpj]; [lia |].
  destruct (lookup_lt_is_Some_2 points (j + 1)) as [qj Hqj]; [lia |].
  rewrite (segment_rows_lookup v dv current_index comparison_index points 0 j pj qj Hpj Hqj).
  f_equal.
  destruct (1 <? jumps)%nat eqn:Hjumps;
    [apply Nat.ltb_lt in Hjumps | apply Nat.ltb_ge in Hjumps].
  - set (c := (j - i st)%nat).
    destruct (Hsums (S c)) as [_ Hsum]; [lia |].
    destruct (Hsums c) as [[s Hs] _]; [lia |].
    replace (i st + c)%nat with j in Hs by lia.
    cbn [path_length] in Hsum. replace (i st + c)%nat with j in Hsum by lia.
    rewrite (length_at_read _ _ _ Hs) in Hsum.
    change (lit 0) with (Q2R 0) in Hsum. rewrite lit_0' in Hsum.
    pose proof (chain_path c (i st) p pj Hp) as Hchain.
    replace (i st + c)%nat with j in Hchain by lia.
    specialize (Hchain Hpj). fold D in Hchain.
    assert (Hreads : forall l, (l < c)%nat ->
              is_Some (segment_lengths !! (i st + l)%nat)).
    { intros l Hl. apply Hsums. lia. }
    specialize (Hchain Hreads).
    apply (apart_row j pj qj s); [eapply lengths_bound; eauto | lra].
  - replace j with (i st) in * by lia. replace pj with p by congruence.
    apply (apart_row (i st) p qj max_segment_length); [eauto |].
    fold D. lra.
Qed.

(** X9: over the real numbers the default jump mode loses nothing either,
    when in addition every entry of [segment_lengths] is at least the
    planar length of its segment and there is an entry for every point. *)
Theorem default_mode_exact :
  jump_mode <> 2%Z -> jump_mode <> 3%Z ->
  (length points <= length segment_lengths)%nat ->
  find_crossings v dv points segment_lengths current_index comparison_index
    max_segment_length jump_mode
  = Ok (scan 0%nat points).
Proof.
  intros H2 H3 Hlen.
  destruct (find_crossings_ok v dv points segment_lengths current_index
              comparison_index max_segment_length jump_mode) as [rows Hrun]; [auto |].
  rewrite Hrun. f_equal. revert Hrun. apply find_crossings_scan.
  intros st st' p Hi Hp Hfar Hj Hbody. eapply skipped_rows_zero_default; eauto.
Qed.

End Exact.

End RealScan.

(** * Further properties of raw_cross_loop *)

Section RawFacts.
Context {F : Type} `{Num F}.
Local Open Scope num_scope.

Lemma for_each_ext {A S : Type} (f g : A -> S -> result S) (l : list A) :
  (forall a s, f a s = g a s) -> forall s, for_each f l s = for_each g l s.
Proof.
  intros Hfg. induction l as [| a l IH]; intros s; cbn [for_each]; [done |].
  rewrite Hfg. destruct (g a s); cbn [mbind result_bind]; auto.
Qed.

(** X10: with fewer than two lines there is no pair of strands, nothing is
    assigned, and the [return] raises [UnboundLocalError]. *)
Theorem raw_cross_loop_few_lines (lines : list (list (point F)))
    (segment_lengths : list (list F)) (max_segment_length : F) (jump_mode : Z)
    (cumulative_lengths : list F) (include_closures : bool) :
  (length lines <= 1)%nat ->
  raw_cross_loop lines segment_lengths max_segment_length jump_mode
    cumulative_lengths include_closures = Raise UnboundLocalError.
Proof.
  intros Hlen. destruct lines as [| line [| line' lines]]; [done | done |].
  cbn in Hlen. lia.
Qed.

(** X11: the segment lengths of the first line are never read: only the
    lengths of the comparison strand of a pair are, and that is never
    line 0. *)
Theorem first_lengths_unread (lines : list (list (point F)))
    (lengths0 lengths0' : list F) (segment_lengths : list (list F))
    (max_segment_length : F) (jump_mode : Z)
    (cumulative_lengths : list F) (include_closures : bool) :
  raw_cross_loop lines (lengths0 :: segment_lengths) max_segment_length jump_mode
    cumulative_lengths include_closures
  = raw_cross_loop lines (lengths0' :: segment_lengths) max_segment_length jump_mode
      cumulative_lengths include_closures.
Proof.
  unfold raw_cross_loop. f_equal.
  apply for_each_ext. intros l vars. unfold line_body.
  apply for_each_ext. intros other vars'. unfold pair_body.
  replace (other.1 + (l.1 + 1))%nat with (S (other.1 + l.1)) by lia.
  reflexivity.
Qed.

End RawFacts.

Module RealMirror.
Import Real RealFacts.
Local Open Scope R_scope.

Lemma sign_real (a : R) :
  sign a = if Rlt_dec 0 a then 1 else if Rlt_dec a 0 then -1 else 0.
Proof.
  unfold sign. rewrite lit_0, lit_1, lit_m1. cbn [ltb real_num]. unfold Rltb.
  destruct (Rlt_dec 0 a), (Rlt_dec a 0); done.
Qed.

Lemma sign_opp (a : R) : sign (- a) = - sign a.
Proof.
  rewrite !sign_real.
  destruct (Rlt_dec 0 a), (Rlt_dec a 0), (Rlt_dec 0 (- a)), (Rlt_dec (- a) 0); lra.
Qed.

(** X6: over the real numbers the intersection test is symmetric in the two
    segments, with the parameters exchanged; seen from the other strand a
    crossing has the opposite sign, and the same signed direction, as the
    second record says. *)
Theorem crossing_mirrored (px py dpx dpy qx qy dqx dqy za zb : R) :
  let r := do_vectors_intersect px py dpx dpy qx qy dqx dqy in
  do_vectors_intersect qx qy dqx dqy px py dpx dpy = (r.1.1, r.2, r.1.2) /\
  sign (zb - za) = lit (-1) * sign (za - zb) /\
  sign (zb - za) * sign (cross_product dqx dqy dpx dpy)
  = sign (za - zb) * sign (cross_product dpx dpy dqx dqy).
Proof.
  cbv zeta.
  assert (Hsign : sign (zb - za) = - sign (za - zb)).
  { rewrite <- sign_opp. f_equal. lra. }
  assert (Hdir : sign (cross_product dqx dqy dpx dpy)
                 = - sign (cross_product dpx dpy dqx dqy)).
  { rewrite <- sign_opp. f_equal. unfold cross_product. cbn. lra. }
  split; [| split; [rewrite Hsign, lit_m1; lra | rewrite Hsign, Hdir; lra]].
  unfold do_vectors_intersect.
  rewrite real_tolerance, lit_0, lit_1, lit_m1.
  set (c := cross_product dpx dpy dqx dqy).
  replace (cross_product dqx dqy dpx dpy) with (- c)
    by (unfold c, cross_product; cbn; lra).
  change (fabs (- c)) with (Rabs (- c)). change (fabs c) with (Rabs c).
  rewrite Rabs_Ropp.
  destruct (ltb (Rabs c) 0.00001) eqn:Hc; [done |].
  apply Rltb_false in Hc.
  assert (Hc0 : c <> 0).
  { intros Hc0. rewrite Hc0, Rabs_R0 in Hc. lra. }
  set (t := div (cross_product (sub qx px) (sub qy py) dqx dqy) c).
  set (u := div (cross_product (sub qx px) (sub qy py) dpx dpy) c).
  replace (div (cross_product (sub px qx) (sub py qy) dpx dpy) (- c)) with u
    by (unfold u, cross_product; cbn; field; done).
  replace (div (cross_product (sub px qx) (sub py qy) dqx dqy) (- c)) with t
    by (unfold t, cross_product; cbn; field; done).
  destruct (ltb t 1 && ltb 0 t), (ltb u 1 && ltb 0 u); done.
Qed.

End RealMirror.

(** * Further properties of the direction sampler *)

Module RotationMore.
Import Rotation RotationFacts.
Local Open Scope R_scope.

(** The height of direction [k] of [number]. *)
#[local] Abbreviation height number k := (-1 + (2 * (INR k - 1)) / (IZR number - 1)).

Lemma alter_lookup_eq {A : Type} (f : A -> A) (l : list A) (k : nat) (x : A) :
  l !! k = Some x -> alter f k l !! k = Some (f x).
Proof. intros Hx. rewrite list_lookup_alter_eq, Hx. done. Qed.

Lemma angles_body_row (number : Z) (k : nat) (angles : list angle) :
  (2 <= k <= length angles)%nat ->
  exists phi,
    angles_body number k angles
    = Ok (<[(k - 1)%nat := (acos (height number k), phi)]> angles).
Proof.
  intros Hk. unfold angles_body, index.
  destruct (lookup_lt_is_Some_2 angles (k - 2)) as [prev ->]; [lia |].
  cbn [mbind result_bind]. eexists. reflexivity.
Qed.

(** The loop over [k = a, ..., a + c - 1] sets the latitudes of the rows
    [a - 1, ..., a + c - 2] and leaves the other rows alone. *)
Lemma angles_loop_latitudes (number : Z) (c : nat) :
  forall a angles,
    (2 <= a)%nat -> (a + c <= length angles + 1)%nat ->
    exists angles',
      for_each (angles_body number) (seq a c) angles = Ok angles' /\
      length angles' = length angles /\
      forall j,
        ((a <= j + 1 < a + c)%nat ->
           exists phi, angles' !! j = Some (acos (height number (j + 1)%nat), phi)) /\
        (~ (a <= j + 1 < a + c)%nat -> angles' !! j = angles !! j).
Proof.
  induction c as [| c IH]; intros a angles Ha Hlen; cbn [seq for_each].
  { exists angles. split; [done |]. split; [done |]. intros j. split; [lia | done]. }
  destruct (angles_body_row number a angles) as [phi0 ->]; [lia |].
  cbn [mbind result_bind].
  set (row := (acos (height number a), phi0)).
  destruct (IH (S a) (<[(a - 1)%nat := row]> angles)) as (angles' & -> & Hlen' & Hrows).
  { lia. }
  { rewrite length_insert. lia. }
  exists angles'. rewrite length_insert in Hlen'. repeat split; [done | |].
  - intros Hj. destruct (decide (j + 1 = a)%nat) as [Heq | Hne].
    + destruct (Hrows j) as [_ Hkeep]. exists phi0.
      etransitivity; [apply Hkeep; lia |].
      replace j with (a - 1)%nat by lia.
      rewrite list_lookup_insert_eq by lia.
      replace (a - 1 + 1)%nat with a by lia. reflexivity.
    + destruct (Hrows j) as [Hset _]. apply Hset. lia.
  - intros Hj. destruct (Hrows j) as [_ Hkeep].
    etransitivity; [apply Hkeep; lia |].
    apply list_lookup_insert_ne. lia.
Qed.

(** X12: for [number >= 2] the latitude of direction [k] is the arccos of
    the height [-1 + 2 (k - 1) / (number - 1)], so the heights (the cosines
    of the latitudes) are evenly spaced from -1 to 1; the first pair is
    (pi, 0) and the last one (0, 0). *)
Theorem get_rotation_angles_latitudes (number : Z) :
  (2 <= number)%Z ->
  exists angles,
    get_rotation_angles number = Ok angles /\
    (forall k, (1 <= k)%nat -> (Z.of_nat k <= number)%Z ->
       exists phi, angles !! (k - 1)%nat = Some (acos (height number k), phi) /\
                   cos (acos (height number k)) = height number k) /\
    angles !! 0%nat = Some (PI, 0) /\
    angles !! (Z.to_nat number - 1)%nat = Some (0, 0).
Proof.
  intros Hn. unfold get_rotation_angles.
  assert (Hn1 : 2 <= IZR number) by (apply (IZR_le 2); done).
  destruct (number <? 0)%Z eqn:Hneg; [apply Z.ltb_lt in Hneg; lia |].
  set (n := Z.to_nat number).
  assert (Hn' : (2 <= n)%nat) by lia.
  unfold index.
  destruct (lookup_lt_is_Some_2 (replicate n (0, 0)) 0) as [first ->];
    [rewrite length_replicate; lia |].
  cbn [mbind result_bind].
  set (start := <[0%nat := (acos (-1), 0)]> (replicate n (0, 0))).
  assert (Hstart : length start = n).
  { unfold start. rewrite length_insert, length_replicate. done. }
  assert (Hfits : (2 + (n - 1) <= length start + 1)%nat) by (rewrite Hstart; lia).
  destruct (angles_loop_latitudes number (n - 1) 2 start (le_n 2) Hfits)
    as (angles & -> & Hlen & Hrows).
  cbn [mbind result_bind]. eexists. split; [reflexivity |].
  assert (Hfirst : angles !! 0%nat = Some (acos (-1), 0)).
  { destruct (Hrows 0%nat) as [_ Hkeep].
    etransitivity; [apply Hkeep; lia |].
    unfold start. apply list_lookup_insert_eq. rewrite length_replicate. lia. }
  assert (Hlast : height number n = 1).
  { unfold n. rewrite INR_IZR_INZ, Z2Nat.id by lia. field. lra. }
  assert (Hh1 : height number 1 = -1).
  { change (INR 1) with 1. field. lra. }
  split; [| split].
  - intros k Hk1 Hkn.
    assert (Hcos : cos (acos (height number k)) = height number k).
    { destruct (decide (k = 1%nat)) as [-> | Hne].
      - rewrite Hh1, acos_m1. apply cos_PI.
      - apply cos_acos. apply height_in_domain; lia. }
    destruct (decide (k = n)) as [-> | Hnelast].
    + destruct (Hrows (n - 1)%nat) as [Hset _].
      destruct Hset as [phi Hphi]; [lia |].
      replace (n - 1 + 1)%nat with n in Hphi by lia.
      exists 0. split; [| done].
      exact (alter_lookup_eq _ _ _ _ Hphi).
    + rewrite list_lookup_alter_ne by lia.
      destruct (decide (k = 1%nat)) as [-> | Hne].
      * exists 0. split; [| done]. change (1 - 1)%nat with 0%nat.
        rewrite Hh1. exact Hfirst.
      * destruct (Hrows (k - 1)%nat) as [Hset _].
        destruct Hset as [phi Hphi]; [lia |].
        replace (k - 1 + 1)%nat with k in Hphi by lia. eauto.
  - rewrite list_lookup_alter_ne by lia. rewrite acos_m1 in Hfirst. exact Hfirst.
  - destruct (Hrows (n - 1)%nat) as [Hset _].
    destruct Hset as [phi Hphi]; [lia |].
    replace (n - 1 + 1)%nat with n in Hphi by lia.
    rewrite Hlast, acos_1 in Hphi.
    exact (alter_lookup_eq _ _ _ _ Hphi).
Qed.

(** X13: [rotate_to_top] is undone by its transpose and keeps the scalar
    product, hence lengths and angles, of any two vectors. *)
Theorem rotate_to_top_isometry (theta phi x y z x' y' z' : R) :
  apply (transpose (rotate_to_top theta phi))
    (apply (rotate_to_top theta phi) [x; y; z]) = [x; y; z] /\
  dot_vec (apply (rotate_to_top theta phi) [x; y; z])
          (apply (rotate_to_top theta phi) [x'; y'; z'])
  = dot_vec [x; y; z] [x'; y'; z'].
Proof.
  rewrite rotate_to_top_simplified.
  pose proof (sin2_cos2 theta) as Ht. pose proof (sin2_cos2 phi) as Hp.
  unfold Rsqr in Ht, Hp.
  unfold apply, transpose, column, dot_vec.
  cbn [map seq length nth zip_with fold_right].
  generalize dependent (sin theta). generalize dependent (cos theta).
  generalize dependent (sin phi). generalize dependent (cos phi).
  intros cp sp Hp ct st Ht.
  assert (Hp' : sp * sp = 1 - cp * cp) by lra.
  assert (Ht' : st * st = 1 - ct * ct) by lra.
  split; [repeat f_equal |]; ring [Hp' Ht'].
Qed.

End RotationMore.

(** * The further properties on concrete inputs *)

Module Binary64More.
Import Binary64 Inputs.
Local Open Scope float_scope.

(** X1 on [far_points], with a budget of 20 iterations. *)
Lemma find_crossings_iterations_witness :
  while_loop (Point 0 0 0) (Point 0 1 0) far_points far_lengths 0 0 1 2 20
    (initial_state far_points) <> OutOfFuel /\
  while_loop (Point 0 0 0) (Point 0 1 0) far_points far_lengths 0 0 1 2 20
    (initial_state far_points)
  = while_loop (Point 0 0 0) (Point 0 1 0) far_points far_lengths 0 0 1 2
      (2 * length far_points) (initial_state far_points).
Proof.
  apply (find_crossings_iterations (Point 0 0 0) (Point 0 1 0) far_points far_lengths
           0 0 1 2 20).
  vm_compute. lia.
Defined.

(** X2 on the buffer of [cross_upright 1]. *)
Lemma find_crossings_shape_witness :
  length [Row 0 0 0 0; Row 2 2 0 (-2); Row 0 0 0 0] = length (upright 1) /\
  (upright 1 <> [] ->
   [Row 0 0 0 0; Row 2 2 0 (-2); Row 0 0 0 0] !! (length (upright 1) - 1)%nat
   = Some (Row (lit 0) (lit 0) (lit 0) (lit 0))).
Proof.
  apply (find_crossings_shape (Point (-1) 0 0) (Point 2 0 0) (upright 1)
           upright_lengths 0 0 2 3).
  vm_compute. reflexivity.
Defined.

(** X4 on [cross_upright 1]: the three points are within 4 of the query
    point. *)
Lemma find_crossings_near_witness :
  cross_upright 1
  = Ok (segment_rows (Point (-1) 0 0) (Point 2 0 0) 0 0 0 (upright 1)).
Proof.
  apply (find_crossings_near (Point (-1) 0 0) (Point 2 0 0) (upright 1) 0 0 2 3
           upright_lengths).
  repeat constructor.
Defined.

(** X5 on [cross_upright 1], without any lengths. *)
Lemma segment_lengths_unread_witness :
  find_crossings (Point (-1) 0 0) (Point 2 0 0) (upright 1) [] 0 0 2 3
  = cross_upright 1.
Proof.
  apply (segment_lengths_unread (Point (-1) 0 0) (Point 2 0 0) (upright 1) 0 0 2 3
           [] upright_lengths).
  right. reflexivity.
Defined.

(** X10 on a single line. *)
Lemma raw_cross_loop_few_lines_witness :
  raw_cross_loop [level] [level_lengths] 2 3 [0] false = Raise UnboundLocalError.
Proof.
  apply (raw_cross_loop_few_lines [level] [level_lengths] 2 3 [0] false).
  vm_compute. lia.
Defined.

End Binary64More.

Module RealWitness.
Import Real RealFacts RealScan RealInputs Rotation.
Local Open Scope R_scope.

Lemma mag_difference_le (a b : point R) (m : R) :
  0 <= m ->
  (px b - px a) * (px b - px a) + (py b - py a) * (py b - py a) <= m * m ->
  mag_difference a b <= m.
Proof.
  intros Hm Hsq. rewrite <- (sqrt_square m Hm).
  apply sqrt_le_1_alt. exact Hsq.
Qed.

Lemma query_step_bounded : mag_difference (Point 0 0 0) query_step <= 1.
Proof. apply mag_difference_le; cbn; lra. Qed.

Lemma side_points_bounded (j : nat) (p q : point R) :
  side_points !! j = Some p -> side_points !! (j + 1)%nat = Some q ->
  mag_difference p q <= 1.
Proof.
  destruct j as [| [| j]]; cbn; try done.
  intros [= <-] [= <-]. apply mag_difference_le; cbn; lra.
Qed.

Lemma side_lengths_bound (j : nat) (s : R) (p q : point R) :
  side_lengths !! j = Some s ->
  side_points !! j = Some p -> side_points !! (j + 1)%nat = Some q ->
  mag_difference p q <= s.
Proof.
  destruct j as [| [| j]]; cbn; try done.
  intros [= <-] [= <-] [= <-]. apply mag_difference_le; cbn; lra.
Qed.

(** X8 on the side segment, three away from a unit query segment, in jump
    mode 2 with the maximal segment length 1. *)
Lemma jump_modes_exact_witness :
  find_crossings query_start query_step side_points side_lengths 0 0 1 2
  = Ok (segment_rows query_start query_step 0 0 0 side_points).
Proof.
  apply (jump_modes_exact query_start query_step side_points side_lengths 0 0 1 2
           query_step_bounded side_points_bounded).
  right. split; [reflexivity | lra].
Defined.

(** X9 on the same segments, in the default jump mode. *)
Lemma default_mode_exact_witness :
  find_crossings query_start query_step side_points side_lengths 0 0 1 1
  = Ok (segment_rows query_start query_step 0 0 0 side_points).
Proof.
  apply (default_mode_exact query_start query_step side_points side_lengths 0 0 1 1
           query_step_bounded side_points_bounded side_lengths_bound).
  - discriminate.
  - discriminate.
  - cbn. lia.
Defined.

(** X12 at two directions. *)
Lemma get_rotation_angles_latitudes_witness :
  exists angles,
    get_rotation_angles 2 = Ok angles /\
    (forall k, (1 <= k)%nat -> (Z.of_nat k <= 2)%Z ->
       exists phi,
         angles !! (k - 1)%nat
         = Some (acos (-1 + (2 * (INR k - 1)) / (IZR 2 - 1)), phi) /\
         cos (acos (-1 + (2 * (INR k - 1)) / (IZR 2 - 1)))
         = -1 + (2 * (INR k - 1)) / (IZR 2 - 1)) /\
    angles !! 0%nat = Some (PI, 0) /\
    angles !! (Z.to_nat 2 - 1)%nat = Some (0, 0).
Proof.
  apply (RotationMore.get_rotation_angles_latitudes 2). lia.
Defined.

End RealWitness.
